(** * refxss: reflected-parameter discovery

    A shallow embedding of [main.go] and of the parts of Go's [strings]
    and [net/url] packages it calls, with the properties of the scanning
    pipeline proved over it.

    Go strings are byte sequences: they are modelled as [string], whose
    characters ([ascii]) are exactly the 256 byte values.  The network and
    the iteration order of Go maps are the two sources of nondeterminism;
    both are read from an explicit [World] that the stateful functions
    thread, in the order in which the code performs its effects. *)

From Stdlib Require Import Ascii String NArith ZArith.
From stdpp Require Import gmap strings list fin_maps sorting.

(** * Part I: the program *)

(** ** Package [strings] *)

(** [strings.HasPrefix(s, prefix)]. *)
Fixpoint strings_HasPrefix (s pre : string) {struct pre} : bool :=
  match pre, s with
  | EmptyString, _ => true
  | String _ _, EmptyString => false
  | String a pre', String b s' => Ascii.eqb a b && strings_HasPrefix s' pre'
  end.

(** [strings.Contains(s, substr)]: [substr] occurs at some offset of [s]. *)
Fixpoint strings_Contains (s substr : string) : bool :=
  strings_HasPrefix s substr ||
  match s with
  | EmptyString => false
  | String _ s' => strings_Contains s' substr
  end.

(** [strings.Cut(s, sep)] for a one-byte separator: the text before the
    first [sep], the text after it, and whether [sep] was found. *)
Fixpoint strings_Cut (s : string) (sep : ascii) : string * string * bool :=
  match s with
  | EmptyString => (EmptyString, EmptyString, false)
  | String c s' =>
      if Ascii.eqb c sep then (EmptyString, s', true)
      else let '(before, after, found) := strings_Cut s' sep in
           (String c before, after, found)
  end.

Module Replacer.

(** The generic [strings.Replacer] (the one [strings.NewReplacer] builds
    when some [old] string is longer than one byte).  [pairs] are the
    (old, new) arguments in the order given; every [old] is non-empty. *)

(** [genericReplacer.lookup]: among the [old] strings that are a prefix
    of [s], the pair given first has priority; the result is its [new]
    string and the length of the key. *)
Fixpoint lookup (pairs : list (string * string)) (s : string)
  : option (string * nat) :=
  match pairs with
  | [] => None
  | (old, new) :: rest =>
      if strings_HasPrefix s old then Some (new, String.length old)
      else lookup rest s
  end.

(** [genericReplacer.Replace]: scan left to right; at a position with a
    match write [new] and jump over the key, otherwise copy one byte.
    [skip] counts the bytes of a matched key still to be jumped over. *)
Fixpoint Replace_from (pairs : list (string * string)) (skip : nat)
    (s : string) : string :=
  match s with
  | EmptyString => EmptyString
  | String c rest =>
      match skip with
      | S k => Replace_from pairs k rest
      | O =>
          match lookup pairs s with
          | Some (new, keylen) =>
              new +:+ Replace_from pairs (keylen - 1) rest
          | None => String c (Replace_from pairs 0 rest)
          end
      end
  end.

Definition Replace (pairs : list (string * string)) (s : string) : string :=
  Replace_from pairs 0 s.

End Replacer.

(** [strings.ReplaceAll(s, old, new)] for a non-empty [old]: the
    non-overlapping occurrences of [old], leftmost first. *)
Definition strings_ReplaceAll (s old new : string) : string :=
  Replacer.Replace [(old, new)] s.

(** ** Package [unicode/utf8] *)

(** A string as its bytes: [s[i]] is [byte_at s i], [s[i:]] is [drop i s],
    [s[:i]] is [take i s]. *)
Abbreviation bytes := (list ascii).

Definition byte_at (s : bytes) (i : nat) : N :=
  match s !! i with Some c => N_of_ascii c | None => 0%N end.

Definition RuneError : N := 65533.
Definition RuneSelf : N := 128.
Definition UTFMax : nat := 4.

(** The table [first]: [0xF0] for ASCII ([as]), [0xF1] for an invalid
    first byte ([xx]), otherwise the size in the low bits and the index
    of the accept range in the high bits. *)
Definition first (b : N) : N :=
  if (b <? 128)%N then 240
  else if (b <? 194)%N then 241
  else if (b <? 224)%N then 2
  else if (b =? 224)%N then 19
  else if (b <? 237)%N then 3
  else if (b =? 237)%N then 35
  else if (b <? 240)%N then 3
  else if (b =? 240)%N then 52
  else if (b <? 244)%N then 4
  else if (b =? 244)%N then 68
  else 241.

Definition locb : N := 128.
Definition hicb : N := 191.

(** [acceptRanges]: the range of the second byte. *)
Definition acceptRanges (i : N) : N * N :=
  match i with
  | 0 => (locb, hicb)
  | 1 => (160, hicb)
  | 2 => (locb, 159)
  | 3 => (144, hicb)
  | 4 => (locb, 143)
  | _ => (0, 0)
  end%N.

(** [utf8.DecodeRuneInString]: the rune and its width in bytes. *)
Definition DecodeRuneInString (s : bytes) : N * nat :=
  let n := length s in
  if n <? 1 then (RuneError, 0)
  else
    let s0 := byte_at s 0 in
    let x := first s0 in
    if (240 <=? x)%N then ((if N.odd x then RuneError else s0), 1)
    else
      let sz := N.to_nat (N.land x 7) in
      let accept := acceptRanges (N.shiftr x 4) in
      if n <? sz then (RuneError, 1)
      else
        let s1 := byte_at s 1 in
        if (s1 <? accept.1)%N || (accept.2 <? s1)%N then (RuneError, 1)
        else if sz <=? 2 then
          (N.lor (N.shiftl (N.land s0 31) 6) (N.land s1 63), 2)
        else
          let s2 := byte_at s 2 in
          if (s2 <? locb)%N || (hicb <? s2)%N then (RuneError, 1)
          else if sz <=? 3 then
            (N.lor (N.lor (N.shiftl (N.land s0 15) 12)
                      (N.shiftl (N.land s1 63) 6)) (N.land s2 63), 3)
          else
            let s3 := byte_at s 3 in
            if (s3 <? locb)%N || (hicb <? s3)%N then (RuneError, 1)
            else
              (N.lor (N.lor (N.lor (N.shiftl (N.land s0 7) 18)
                               (N.shiftl (N.land s1 63) 12))
                        (N.shiftl (N.land s2 63) 6)) (N.land s3 63), 4).

(** [utf8.RuneStart]: not a continuation byte. *)
Definition RuneStart (b : N) : bool := negb (N.land b 192 =? 128)%N.

(** The loop of [DecodeLastRuneInString] that walks back to the start of
    the rune: [for start--; start >= lim; start--] with a [break] at a
    start byte.  [start] has been decremented already; [n] bounds the
    number of turns (the loop makes at most [UTFMax - 1]). *)
Fixpoint back_to_start (s : bytes) (lim : Z) (n : nat) (start : Z) : Z :=
  match n with
  | O => start
  | S n' =>
      if (start <? lim)%Z then start
      else if RuneStart (byte_at s (Z.to_nat start)) then start
      else back_to_start s lim n' (start - 1)%Z
  end.

(** [utf8.DecodeLastRuneInString]. *)
Definition DecodeLastRuneInString (s : bytes) : N * nat :=
  let end_ := length s in
  if end_ =? 0 then (RuneError, 0)
  else
    let start := end_ - 1 in
    let r := byte_at s start in
    if (r <? RuneSelf)%N then (r, 1)
    else
      let lim := Z.max (Z.of_nat end_ - Z.of_nat UTFMax) 0 in
      let start := back_to_start s lim UTFMax (Z.of_nat start - 1) in
      let start := Z.to_nat (if (start <? 0)%Z then 0%Z else start) in
      let '(r, size) := DecodeRuneInString (take (end_ - start) (drop start s)) in
      if negb (start + size =? end_) then (RuneError, 1) else (r, size).

(** ** Package [unicode] *)

(** [unicode.IsSpace]: the Latin-1 spaces, and outside Latin-1 the table
    [White_Space]. *)
Definition unicode_IsSpace (r : N) : bool :=
  if (r <=? 255)%N then
    ((9 <=? r) && (r <=? 13) || (r =? 32) || (r =? 133) || (r =? 160))%N
  else
    ((r =? 5760) || (8192 <=? r) && (r <=? 8202) || (r =? 8232) || (r =? 8233)
     || (r =? 8239) || (r =? 8287) || (r =? 12288))%N.

(** ** Package [strings]: trimming *)

(** [indexFunc(s, f, truth)]: the index of the first rune [r] of [s] with
    [f(r) == truth]; [None] is [-1].  [for i, r := range s] decodes one
    rune after the other; [skip] counts the bytes of the current rune
    still to be passed, [i] is the index of the first byte of [s]. *)
Fixpoint indexFunc_from (f : N -> bool) (truth : bool) (skip i : nat)
    (s : bytes) : option nat :=
  match s with
  | [] => None
  | _ :: rest =>
      match skip with
      | S k => indexFunc_from f truth k (S i) rest
      | O =>
          let '(r, size) := DecodeRuneInString s in
          if Bool.eqb (f r) truth then Some i
          else indexFunc_from f truth (size - 1) (S i) rest
      end
  end.

Definition indexFunc (s : bytes) (f : N -> bool) (truth : bool) : option nat :=
  indexFunc_from f truth 0 0 s.

(** [lastIndexFunc(s, f, truth)]: [for i := len(s); i > 0;] decodes the
    last rune of [s[0:i]] and steps [i] back over it. *)
Fixpoint lastIndexFunc_from (s : bytes) (f : N -> bool) (truth : bool)
    (skip i : nat) : option nat :=
  match i with
  | O => None
  | S i' =>
      match skip with
      | S k => lastIndexFunc_from s f truth k i'
      | O =>
          let '(r, size) := DecodeLastRuneInString (take i s) in
          if Bool.eqb (f r) truth then Some (i - size)
          else lastIndexFunc_from s f truth (size - 1) i'
      end
  end.

Definition lastIndexFunc (s : bytes) (f : N -> bool) (truth : bool) : option nat :=
  lastIndexFunc_from s f truth 0 (length s).

Definition TrimLeftFunc (s : bytes) (f : N -> bool) : bytes :=
  match indexFunc s f false with
  | None => []
  | Some i => drop i s
  end.

Definition TrimRightFunc (s : bytes) (f : N -> bool) : bytes :=
  match lastIndexFunc s f false with
  | Some i =>
      if (RuneSelf <=? byte_at s i)%N
      then take (i + (DecodeRuneInString (drop i s)).2) s
      else take (S i) s
  | None => []
  end.

Definition TrimFunc (s : bytes) (f : N -> bool) : bytes :=
  TrimRightFunc (TrimLeftFunc s f) f.

(** The table [asciiSpace]. *)
Definition asciiSpace (c : N) : bool :=
  ((9 <=? c) && (c <=? 13) || (c =? 32))%N.

(** The second loop of [TrimSpace], on [s[start:stop]] with the bytes in
    reverse: the last ASCII non-space byte, or the fall back to
    [TrimRightFunc] at a non-ASCII byte. *)
Fixpoint TrimSpace_stop (rev_s : bytes) : bytes :=
  match rev_s with
  | [] => []
  | c :: rest =>
      if (RuneSelf <=? N_of_ascii c)%N
      then TrimRightFunc (reverse rev_s) unicode_IsSpace
      else if asciiSpace (N_of_ascii c) then TrimSpace_stop rest
      else reverse rev_s
  end.

(** The first loop of [TrimSpace], on [s[start:]]: the first ASCII
    non-space byte, or the fall back to [TrimFunc] at a non-ASCII byte. *)
Fixpoint TrimSpace_start (s : bytes) : bytes :=
  match s with
  | [] => []
  | c :: rest =>
      if (RuneSelf <=? N_of_ascii c)%N then TrimFunc s unicode_IsSpace
      else if asciiSpace (N_of_ascii c) then TrimSpace_start rest
      else TrimSpace_stop (reverse s)
  end.

Definition strings_TrimSpace (s : string) : string :=
  string_of_list_ascii (TrimSpace_start (list_ascii_of_string s)).

(** ** Package [net/url]: query escaping *)

Definition byte_between (lo hi c : ascii) : bool :=
  (N_of_ascii lo <=? N_of_ascii c)%N && (N_of_ascii c <=? N_of_ascii hi)%N.

Definition byte_among (set : string) (c : ascii) : bool :=
  strings_Contains set (String c EmptyString).

(** [shouldEscape(c, encodeQueryComponent)]: everything is escaped but the
    unreserved characters. *)
Definition shouldEscape (c : ascii) : bool :=
  if byte_between "a" "z" c || byte_between "A" "Z" c || byte_between "0" "9" c
  then false
  else if byte_among "-_.~" c then false
  else true.

Definition upperhex (n : N) : ascii :=
  default "0"%char (String.get (N.to_nat n) "0123456789ABCDEF").

(** [url.QueryEscape]: a space becomes [+], every other escaped byte
    becomes [%XX] with upper-case hexadecimal digits. *)
Fixpoint url_QueryEscape (s : string) : string :=
  match s with
  | EmptyString => EmptyString
  | String c s' =>
      if shouldEscape c then
        if Ascii.eqb c " " then String "+" (url_QueryEscape s')
        else String "%" (String (upperhex (N.shiftr (N_of_ascii c) 4))
                           (String (upperhex (N.land (N_of_ascii c) 15))
                              (url_QueryEscape s')))
      else String c (url_QueryEscape s')
  end.

Definition ishex (c : ascii) : bool :=
  byte_between "0" "9" c || byte_between "a" "f" c || byte_between "A" "F" c.

Definition unhex (c : ascii) : N :=
  if byte_between "0" "9" c then N_of_ascii c - N_of_ascii "0"
  else if byte_between "a" "f" c then N_of_ascii c - N_of_ascii "a" + 10
  else if byte_between "A" "F" c then N_of_ascii c - N_of_ascii "A" + 10
  else 0.

(** [url.QueryUnescape]: [None] is the [EscapeError] of a [%] that is
    not followed by two hexadecimal digits. *)
Fixpoint url_QueryUnescape (s : string) : option string :=
  match s with
  | EmptyString => Some EmptyString
  | String c s' =>
      if Ascii.eqb c "%" then
        match s' with
        | String a (String b s'') =>
            if ishex a && ishex b then
              String (ascii_of_N (N.lor (N.shiftl (unhex a) 4) (unhex b)))
                <$> url_QueryUnescape s''
            else None
        | _ => None
        end
      else if Ascii.eqb c "+" then String " " <$> url_QueryUnescape s'
      else String c <$> url_QueryUnescape s'
  end.

(** ** Package [net/url]: [Values] *)

(** [url.Values] is [map[string][]string]. *)
Abbreviation Values := (gmap string (list string)).

(** [Values.Get]: the first value of [key], or the empty string. *)
Definition Values_Get (v : Values) (key : string) : string :=
  match v !! key with
  | Some (x :: _) => x
  | _ => EmptyString
  end.

(** [Values.Set]: [key] gets the single value [value]. *)
Definition Values_Set (v : Values) (key value : string) : Values :=
  <[key := [value]]> v.

(** [m[key] = append(m[key], value)]. *)
Definition Values_Add (v : Values) (key value : string) : Values :=
  <[key := default [] (v !! key) ++ [value]]> v.

(** The [&]-separated pieces that the loop of [parseQuery] cuts off one
    after the other ([key, query, _ = strings.Cut(query, "&")] until
    [query] is empty). *)
Fixpoint query_pieces (query : string) : list string :=
  match query with
  | EmptyString => []
  | String c q' =>
      if Ascii.eqb c "&" then EmptyString :: query_pieces q'
      else match query_pieces q' with
           | [] => [String c EmptyString]
           | p :: ps => String c p :: ps
           end
  end.

(** One turn of the loop of [parseQuery]: a piece with a semicolon, an
    empty piece, or one whose key or value does not unescape, is skipped
    (the error is remembered by [ParseQuery] and dropped by [URL.Query]). *)
Definition parseQuery_piece (m : Values) (piece : string) : Values :=
  if strings_Contains piece ";" then m
  else if String.eqb piece EmptyString then m
  else
    let '(key, value, _) := strings_Cut piece "=" in
    match url_QueryUnescape key with
    | None => m
    | Some key =>
        match url_QueryUnescape value with
        | None => m
        | Some value => Values_Add m key value
        end
    end.

Definition parseQuery (m : Values) (query : string) : Values :=
  fold_left parseQuery_piece (query_pieces query) m.

(** The keys of a [Values] in increasing byte order
    ([slices.Sorted(maps.Keys(v))]). *)
Definition sorted_keys (v : Values) : list string :=
  merge_sort String.le (elements (dom v)).

Definition join_amp (pieces : list string) : string :=
  match pieces with
  | [] => EmptyString
  | p :: ps => fold_left (fun acc x => acc +:+ "&" +:+ x) ps p
  end.

(** The [key=value] pairs that [Values.Encode] writes, in order. *)
Definition Encode_pairs (v : Values) : list string :=
  k ← sorted_keys v;
  (fun x => url_QueryEscape k +:+ "=" +:+ url_QueryEscape x)
    <$> default [] (v !! k).

(** [Values.Encode]. *)
Definition Values_Encode (v : Values) : string :=
  join_amp (Encode_pairs v).

(** [url.URL]: the query is the only component the program reads or
    writes; every other component (scheme, authority, path, fragment) is
    kept in [Rest]. *)
Record url_URL (R : Type) := mk_URL { Rest : R; RawQuery : string }.
Arguments mk_URL {R} _ _.
Arguments Rest {R} _.
Arguments RawQuery {R} _.

(** [URL.Query]: [ParseQuery(u.RawQuery)] with the error dropped. *)
Definition URL_Query {R} (u : url_URL R) : Values :=
  parseQuery ∅ (RawQuery u).

(** ** The collaborators *)

(** What [io.ReadAll(resp.Body)] yields: a nil body, a read error, or the
    data. *)
Inductive BodyRead :=
| BodyNil
| BodyError
| BodyData (data : string).

(** [http.Response], as far as it is read:
    [resp.Header.Get("Content-Type")] and the body. *)
Record http_Response := mk_Response {
  ContentType : string;
  Body : BodyRead
}.

(** Everything outside the program: [url.Parse] and [URL.String] of
    [net/url], the HTTP client (with its timeout and headers), and the
    order in which a [range] visits a map.  [client_Do] returns [None] for
    a transport failure.  Go leaves the order of a map iteration
    unspecified: a [range] visits every entry once, in an order taken from
    the world. *)
Class Platform := {
  URLRest : Type;
  url_Parse : string -> option (url_URL URLRest);
  URL_String : url_URL URLRest -> string;
  World : Type;
  client_Do : string -> World -> option http_Response * World;
  range_Values : Values -> World -> list (string * list string) * World;
  range_Values_perm : forall q w, (range_Values q w).1 ≡ₚ map_to_list q
}.

(** ** Constants and types of [main.go] *)

Definition prefix : string := "aprefix".
Definition suffix : string := "asuffix".

Record Result := mk_Result {
  URL : string;
  Param : string;
  Chars : list string
}.

(** ** URL normalization *)

Definition normalizeURL_pairs : list (string * string) :=
  [ ("\\?", "?"); ("\?", "?"); ("\=", "="); ("\&", "&") ].

Definition normalizeURL (u : string) : string :=
  Replacer.Replace normalizeURL_pairs u.

(** ** The stateful part *)

(** The probe set of [testSpecialChars]; the first one is the double
    quote. *)
Definition chars : list string :=
  [ String "034" EmptyString; "'"; "<"; ">"; "$"; "|";
    "("; ")"; "`"; ":"; ";"; "{"; "}" ].

(** The body of the loop of [findReflectedParams], over the entries in
    the order in which the [range] visits them. *)
Fixpoint reflected_loop (body : string) (entries : list (string * list string))
    (reflected : list string) : list string :=
  match entries with
  | [] => reflected
  | (k, v) :: rest =>
      match v with
      | [] => reflected_loop body rest reflected
      | val :: _ =>
          if strings_Contains body val
             || strings_Contains body (url_QueryEscape val)
             || strings_Contains body (strings_ReplaceAll val " " "+")
          then reflected_loop body rest (reflected ++ [k])
          else reflected_loop body rest reflected
      end
  end.

Section Program.
Context `{Platform}.

(** The state: the world, and the requests handed to the HTTP client so
    far (a record of the effects, which the program itself never reads). *)
Record State := mk_State {
  world : World;
  requests : list string
}.

Definition M (A : Type) : Type := State -> A * State.

Definition ret {A} (a : A) : M A := fun s => (a, s).

Definition bind {A B} (m : M A) (k : A -> M B) : M B :=
  fun s => let '(a, s') := m s in k a s'.

Notation "'let*' x ':=' m 'in' k" := (bind m (fun x => k))
  (at level 10, x name, m at level 100, k at level 200, only parsing).
Notation "'let*' ' p ':=' m 'in' k" := (bind m (fun x => let 'p := x in k))
  (at level 10, p pattern, m at level 100, k at level 200, only parsing).

(** [client.Do(req)]: one request on the wire. *)
Definition do_client (target : string) : M (option http_Response) :=
  fun s =>
    let '(resp, w) := client_Do target (world s) in
    (resp, mk_State w (requests s ++ [target])).

(** [for k, v := range u.Query()]. *)
Definition do_range (q : Values) : M (list (string * list string)) :=
  fun s =>
    let '(entries, w) := range_Values q (world s) in
    (entries, mk_State w (requests s)).

(** [doRequest]: [http.NewRequestWithContext] fails exactly when
    [url.Parse] rejects the target. *)
Definition doRequest (target : string) : M (option http_Response * string) :=
  match url_Parse target with
  | None => ret (None, EmptyString)
  | Some _ =>
      let* resp := do_client target in
      match resp with
      | None => ret (None, EmptyString)
      | Some r =>
          match Body r with
          | BodyNil => ret (None, EmptyString)
          | BodyError => ret (Some r, EmptyString)
          | BodyData data => ret (Some r, data)
          end
      end
  end.

Definition findReflectedParams (target : string) : M (list string) :=
  let* '(resp, body) := doRequest target in
  match resp with
  | None => ret []
  | Some r =>
      if negb (strings_Contains (ContentType r) "html") then ret []
      else
        match url_Parse target with
        | None => ret []
        | Some u =>
            let* entries := do_range (URL_Query u) in
            ret (reflected_loop body entries [])
        end
  end.

Definition checkAppend (target param payload : string) : M bool :=
  match url_Parse target with
  | None => ret false
  | Some u =>
      let q := URL_Query u in
      let q := Values_Set q param (Values_Get q param +:+ payload) in
      let u := mk_URL (Rest u) (Values_Encode q) in
      let* '(_, body) := doRequest (URL_String u) in
      ret (strings_Contains body payload)
  end.

Fixpoint testSpecialChars_loop (target param : string) (cs : list string)
    (unfiltered : list string) : M (list string) :=
  match cs with
  | [] => ret unfiltered
  | c :: cs' =>
      let payload := prefix +:+ c +:+ suffix in
      let* ok := checkAppend target param payload in
      if ok then testSpecialChars_loop target param cs' (unfiltered ++ [c])
      else testSpecialChars_loop target param cs' unfiltered
  end.

Definition testSpecialChars (target param : string) : M (list string) :=
  testSpecialChars_loop target param chars [].

(** The inner loop of a worker: [for _, p := range params]. *)
Fixpoint worker_params (cleanURL : string) (params : list string)
    : M (list Result) :=
  match params with
  | [] => ret []
  | p :: ps =>
      let* cs := testSpecialChars cleanURL p in
      let* rest := worker_params cleanURL ps in
      ret (if decide (0 < length cs) then mk_Result cleanURL p cs :: rest
           else rest)
  end.

(** What a worker does with one line of the input channel. *)
Definition worker_url (rawURL : string) : M (list Result) :=
  let cleanURL := normalizeURL rawURL in
  let* params := findReflectedParams cleanURL in
  worker_params cleanURL params.

(** A worker: [for rawURL := range input]; the results it sends, in the
    order in which it sends them. *)
Fixpoint worker (input : list string) : M (list Result) :=
  match input with
  | [] => ret []
  | rawURL :: rest =>
      let* rs := worker_url rawURL in
      let* rs' := worker rest in
      ret (rs ++ rs')
  end.

End Program.

(** ** The producer *)

(** The producer: the lines that [sc.Scan] yields, trimmed; what it sends
    on the input channel. *)
Fixpoint producer (lines : list string) : list string :=
  match lines with
  | [] => []
  | text :: rest =>
      let line := strings_TrimSpace text in
      if negb (String.eqb line EmptyString) then line :: producer rest
      else producer rest
  end.

(** ** Grouping the results *)

Abbreviation Report := (gmap string (gmap string (list string))).

(** One turn of [for r := range results]. *)
Definition group_step (grouped : Report) (r : Result) : Report :=
  let grouped :=
    match grouped !! URL r with
    | Some _ => grouped
    | None => <[URL r := ∅]> grouped
    end in
  <[URL r := <[Param r := Chars r]> (default ∅ (grouped !! URL r))]> grouped.

Definition group (results : list Result) : Report :=
  fold_left group_step results ∅.

(** [foundAny] after the loop. *)
Definition foundAny (results : list Result) : bool :=
  match results with [] => false | _ => true end.

(** ** The headers of a request *)

(** [headerFlags.Set]: one more [-H] flag; it never fails. *)
Definition headerFlags_Set (h : list string) (v : string) : list string :=
  h ++ [v].

(** The loop of [genSplit]: at most [n] cuts. *)
Fixpoint SplitN_loop (s : string) (sep : ascii) (n : nat) : list string :=
  match n with
  | O => [s]
  | S n' =>
      let '(before, after, found) := strings_Cut s sep in
      if found then before :: SplitN_loop after sep n' else [s]
  end.

(** [strings.SplitN(s, sep, n)] for a one-byte separator and [n >= 0]:
    at most [n] pieces, the last one the unsplit rest. *)
Definition strings_SplitN (s : string) (sep : ascii) (n : nat) : list string :=
  match n with
  | O => []
  | S _ => SplitN_loop s sep (Nat.min n (String.length s + 1) - 1)
  end.

(** One turn of the loop over [headers] in [doRequest]: the arguments of
    the call [req.Header.Set], if there is one. *)
Definition header_set (h : string) : option (string * string) :=
  match strings_SplitN h ":" 2 with
  | [name; value] => Some (strings_TrimSpace name, strings_TrimSpace value)
  | _ => None
  end.

(** The calls [req.Header.Set(key, value)] that [doRequest] makes, in
    their order. *)
Definition request_header_sets (headers : list string)
  : list (string * string) :=
  ("User-Agent", "refxss/1.0") :: omap header_set headers.

(** ** The output *)

(** The colours: the escape byte is written by its number. *)
Definition green : string := String "027" "[32m".
Definition red : string := String "027" "[31m".
Definition pink : string := String "027" "[35m".
Definition reset : string := String "027" "[0m".
Definition newline : string := String "010" EmptyString.

(** [strings.Join]. *)
Fixpoint strings_Join (elems : list string) (sep : string) : string :=
  match elems with
  | [] => EmptyString
  | [x] => x
  | x :: rest => x +:+ sep +:+ strings_Join rest sep
  end.

(** [%v] of a [[]string]. *)
Definition fmt_strings (l : list string) : string :=
  "[" +:+ strings_Join l " " +:+ "]".

(** The texts of the four calls of [fmt.Printf]. *)
Definition header_text (url : string) : string :=
  green +:+ "[REFLECTED]" +:+ reset +:+ " " +:+ url +:+ newline.

Definition param_text (param : string) : string :=
  "    " +:+ pink +:+ "Param:" +:+ reset +:+ " " +:+ param +:+ newline.

Definition unfiltered_text (cs : list string) : string :=
  "    Unfiltered: " +:+ fmt_strings cs +:+ newline +:+ newline.

Definition not_found_text : string :=
  red +:+ "[-] No reflected XSS parameters found" +:+ reset +:+ newline.

(** [for param, chars := range params]: what it prints. *)
Fixpoint print_params (params : list (string * list string)) : list string :=
  match params with
  | [] => []
  | (param, cs) :: rest =>
      param_text param :: unfiltered_text cs :: print_params rest
  end.

(** The order in which [for url, params := range grouped] visits the
    report: as for [range_Values], every entry once, in an order taken
    from the world. *)
Class ReportRange `{Platform} := {
  range_Report : Report -> World -> list (string * Values) * World;
  range_Report_perm : forall g w, (range_Report g w).1 ≡ₚ map_to_list g
}.

Section Output.
Context `{ReportRange}.

(** [for url, params := range grouped]. *)
Definition do_range_Report (g : Report) : M (list (string * Values)) :=
  fun s =>
    let '(entries, w) := range_Report g (world s) in
    (entries, mk_State w (requests s)).

(** The body of the loop over the report; the result is what is written
    to the standard output, call of [Printf] after call. *)
Fixpoint print_urls (entries : list (string * Values)) : M (list string) :=
  match entries with
  | [] => ret []
  | (url, params) :: rest =>
      bind (do_range params) (fun ps =>
      bind (print_urls rest) (fun out =>
      ret (header_text url :: print_params ps ++ out)))
  end.

(** The [PRINT] part of [main]. *)
Definition print_report (grouped : Report) (found : bool) : M (list string) :=
  bind (do_range_Report grouped) (fun entries =>
  bind (print_urls entries) (fun out =>
  ret (out ++ if negb found then [not_found_text] else []))).

End Output.

(** ** A platform for the examples *)

(** [stringContainsCTLByte]: a byte below the space, or [0x7f]. *)
Definition stringContainsCTLByte (s : string) : bool :=
  existsb (fun c => (N_of_ascii c <? 32)%N || (N_of_ascii c =? 127)%N)
    (list_ascii_of_string s).

(** [url.Parse] for the URLs of the examples: it cuts the fragment and
    the query off and rejects control bytes.  The checks that [url.Parse]
    makes on the scheme, the authority and the path are left out; the
    theorems hold for every [Platform] and do not depend on them. *)
Definition demo_Parse (rawURL : string)
  : option (url_URL (string * bool * string)) :=
  let '(u, frag, _) := strings_Cut rawURL "#" in
  if stringContainsCTLByte u then None
  else
    let '(base, query, found) := strings_Cut u "?" in
    Some (mk_URL (base, found && String.eqb query EmptyString, frag) query).

(** [URL.String] for them: the second component of [Rest] is
    [ForceQuery]. *)
Definition demo_String (u : url_URL (string * bool * string)) : string :=
  let '(base, force, frag) := Rest u in
  base
  +:+ (if force || negb (String.eqb (RawQuery u) EmptyString)
       then "?" +:+ RawQuery u else EmptyString)
  +:+ (if String.eqb frag EmptyString then EmptyString else "#" +:+ frag).

(** The world of the examples is one bit: whether a [range] over a map
    runs forwards or backwards through its entries. *)
Definition demo_range (backwards : bool) (q : Values)
  : list (string * list string) :=
  if backwards then reverse (map_to_list q) else map_to_list q.

Definition demo_platform (server : string -> option http_Response) : Platform :=
  {| URLRest := string * bool * string;
     url_Parse := demo_Parse;
     URL_String := demo_String;
     World := bool;
     client_Do := fun target w => (server target, w);
     range_Values := fun q w => (demo_range w q, w);
     range_Values_perm := fun q w =>
       match w return demo_range w q ≡ₚ map_to_list q with
       | true => reverse_Permutation (map_to_list q)
       | false => reflexivity (map_to_list q)
       end |}.

Definition demo_state (server : string -> option http_Response) (w : bool)
  : @State (demo_platform server) :=
  @mk_State (demo_platform server) w [].

Definition html (body : string) : option http_Response :=
  Some (mk_Response "text/html; charset=utf-8" (BodyData body)).

(** A server that answers every request with the same page. *)
Definition page (body : string) (target : string) : option http_Response :=
  html body.

(** A server that writes the value of [q], passed through its filter,
    into the page. *)
Definition echo_q (filter : string -> string) (target : string)
  : option http_Response :=
  match demo_Parse target with
  | None => None
  | Some u => html ("<p>" +:+ filter (Values_Get (URL_Query u) "q") +:+ "</p>")
  end.

(** A filter that lets only letters and digits through. *)
Fixpoint alnum_only (s : string) : string :=
  match s with
  | EmptyString => EmptyString
  | String c s' =>
      if byte_between "a" "z" c || byte_between "A" "Z" c
         || byte_between "0" "9" c
      then String c (alnum_only s') else alnum_only s'
  end.

(** A server that never answers. *)
Definition unreachable (target : string) : option http_Response := None.

(** A server whose pages cannot be read: the response arrives, reading
    its body fails. *)
Definition broken_body (target : string) : option http_Response :=
  Some (mk_Response "text/html" BodyError).

(** The report of the examples is visited in the order of its keys. *)
Definition demo_ReportRange (server : string -> option http_Response)
  : @ReportRange (demo_platform server) :=
  {| range_Report := fun g w => (map_to_list g, w);
     range_Report_perm := fun g w => reflexivity (map_to_list g) |}.

(** * Part II: the notions of the statements *)

(** ** Substrings *)

Definition substring (sub s : string) : Prop :=
  exists before after, s = before +:+ sub +:+ after.

Fixpoint string_forall (P : ascii -> bool) (s : string) : bool :=
  match s with
  | EmptyString => true
  | String c s' => P c && string_forall P s'
  end.

(** [s] has no byte [c]. *)
Definition without (c : ascii) (s : string) : bool :=
  string_forall (fun x => negb (Ascii.eqb x c)) s.

(** ** Escapes of [normalizeURL] *)

Definition special (c : ascii) : bool :=
  Ascii.eqb c "?" || Ascii.eqb c "=" || Ascii.eqb c "&".

(** One unfolding of [normalizeURL], by the first bytes of its input. *)
Definition normalizeURL_step (s : string) : string :=
  match s with
  | EmptyString => EmptyString
  | String c r =>
      if Ascii.eqb c "\" then
        match r with
        | EmptyString => String c EmptyString
        | String d r' =>
            if special d then String d (normalizeURL r')
            else if Ascii.eqb d "\" then
              match r' with
              | String e r'' =>
                  if Ascii.eqb e "?" then String e (normalizeURL r'')
                  else String c (normalizeURL r)
              | EmptyString => String c (normalizeURL r)
              end
            else String c (normalizeURL r)
        end
      else String c (normalizeURL r)
  end.

(** An escape that [normalizeURL] resolves occurs in [y]. *)
Definition has_escape (y : string) : bool :=
  strings_Contains y "\?" || strings_Contains y "\=" || strings_Contains y "\&".

(** An escape behind a backslash: the input leaves an escape behind. *)
Definition double_escape (x : string) : bool :=
  strings_Contains x "\\=" || strings_Contains x "\\&"
  || strings_Contains x "\\\?".

Definition escape_here (y : string) : bool :=
  match y with
  | String c (String d _) => Ascii.eqb c "\" && special d
  | _ => false
  end.

Definition double_escape_here (x : string) : bool :=
  match x with
  | String c (String d (String e r)) =>
      Ascii.eqb c "\" && Ascii.eqb d "\"
      && (Ascii.eqb e "=" || Ascii.eqb e "&"
          || (Ascii.eqb e "\" && match r with
                                 | String f _ => Ascii.eqb f "?"
                                 | _ => false
                                 end))
  | _ => false
  end.

Definition first_special (y : string) : bool :=
  match y with
  | String d _ => special d
  | EmptyString => false
  end.

(** ** Queries *)

(** Bytes that [url.QueryEscape] can write. *)
Definition escaped_byte (c : ascii) : bool :=
  negb (shouldEscape c) || Ascii.eqb c "%" || Ascii.eqb c "+".

(** No key of a [Values] built by [ParseQuery] and [Set] has an empty
    list of values. *)
Definition Values_wf (q : Values) : Prop := forall k, q !! k <> Some [].

Definition add_all (kvs : list (string * string)) (m : Values) : Values :=
  fold_left (fun m kv => Values_Add m kv.1 kv.2) kvs m.

Definition values_of (k : string) (kvs : list (string * string)) : list string :=
  (filter (fun kv => kv.1 = k) kvs).*2.

(** The (key, value) pairs of [q], key after key. *)
Definition pairs_of (q : Values) (keys : list string) : list (string * string) :=
  k ← keys; (fun v => (k, v)) <$> default [] (q !! k).

Definition encode_pair (kv : string * string) : string :=
  url_QueryEscape kv.1 +:+ "=" +:+ url_QueryEscape kv.2.

(** ** Reflection *)

(** The test of [findReflectedParams] on a value. *)
Definition reflects (body val : string) : bool :=
  strings_Contains body val
  || strings_Contains body (url_QueryEscape val)
  || strings_Contains body (strings_ReplaceAll val " " "+").

Definition entry_reflected (body : string) (kv : string * list string) : bool :=
  match kv.2 with
  | [] => false
  | val :: _ => reflects body val
  end.

(** ** The report *)

(** The character list the report holds for a URL and a parameter. *)
Definition entry (g : Report) (u p : string) : option (list string) :=
  g !! u ≫= (.!! p).

(** Findings that agree: the same URL and parameter carry the same
    character list. *)
Definition agree (rs : list Result) : Prop :=
  forall r1 r2, r1 ∈ rs -> r2 ∈ rs ->
    URL r1 = URL r2 -> Param r1 = Param r2 -> Chars r1 = Chars r2.

(** ** Requests and probes *)

Section Notions.
Context `{Platform}.

(** The request that a call of [doRequest] hands to the client. *)
Definition issued (target : string) : list string :=
  match url_Parse target with Some _ => [target] | None => [] end.

(** [doRequest] gets no response: [http.NewRequestWithContext] rejects
    the target, [client.Do] returns an error, or the response has no
    body. *)
Definition no_response (target : string) (s : State) : Prop :=
  url_Parse target = None
  \/ (client_Do target (world s)).1 = None
  \/ exists r, (client_Do target (world s)).1 = Some r /\ Body r = BodyNil.

(** The GET request fails: there is no response, or the response
    arrives and reading its body fails (the deadline passes, or the
    connection is cut, while [io.ReadAll] reads). *)
Definition request_fails (target : string) (s : State) : Prop :=
  no_response target s
  \/ exists r, (client_Do target (world s)).1 = Some r /\ Body r = BodyError.

Definition payload_of (c : string) : string := prefix +:+ c +:+ suffix.

(** The query of a probe: [q.Set(param, q.Get(param)+payload)]. *)
Definition probe_query (u : url_URL URLRest) (param payload : string) : Values :=
  Values_Set (URL_Query u) param (Values_Get (URL_Query u) param +:+ payload).

(** The target of the request that [checkAppend] issues. *)
Definition probe_target (u : url_URL URLRest) (param payload : string) : string :=
  URL_String (mk_URL (Rest u) (Values_Encode (probe_query u param payload))).

(** The state in which the probe of the [i]-th character starts. *)
Definition state_before_probe (target param : string) (i : nat) (s : State)
  : State :=
  (testSpecialChars_loop target param (take i chars) [] s).2.

(** The state in which a worker starts the probes of the [i]-th reflected
    parameter of a URL. *)
Definition state_before_param (cleanURL : string) (params : list string)
    (i : nat) (s : State) : State :=
  (worker_params cleanURL (take i params) s).2.

End Notions.

(** ** White space *)

(** The UTF-8 encodings of the runes that [unicode.IsSpace] accepts, as
    byte values and as bytes. *)
Definition space_codes : list (list N) :=
  [ [9]; [10]; [11]; [12]; [13]; [32]; [194; 133]; [194; 160];
    [225; 154; 128];
    [226; 128; 128]; [226; 128; 129]; [226; 128; 130]; [226; 128; 131];
    [226; 128; 132]; [226; 128; 133]; [226; 128; 134]; [226; 128; 135];
    [226; 128; 136]; [226; 128; 137]; [226; 128; 138];
    [226; 128; 168]; [226; 128; 169]; [226; 128; 175];
    [226; 129; 159]; [227; 128; 128] ]%N.

Definition space_encodings : list bytes :=
  (fun w : list N => ascii_of_N <$> w) <$> space_codes.

(** Nothing but white space. *)
Definition white (s : bytes) : Prop :=
  exists ws, Forall (fun w => w ∈ space_encodings) ws /\ s = concat ws.

(** No white space at either end. *)
Definition trimmed (t : bytes) : Prop :=
  forall w, w ∈ space_encodings -> ~ w `prefix_of` t /\ ~ w `suffix_of` t.

(** ** Reading runes *)

(** The width, and the bounds of the second byte, that a leading byte
    asks for. *)
Definition lead_size (s0 : N) : nat :=
  if (s0 <? 224)%N then 2 else if (s0 <? 240)%N then 3 else 4.

Definition lead_lo (s0 : N) : N :=
  if (s0 =? 224)%N then 160 else if (s0 =? 240)%N then 144 else 128.

Definition lead_hi (s0 : N) : N :=
  if (s0 =? 237)%N then 159 else if (s0 =? 244)%N then 143 else 191.

(** [DecodeRuneInString] with the table [first] read off. *)
Definition DecodeRune_cases (s0 : N) (s : bytes) : N * nat :=
  if (s0 <? 128)%N then (s0, 1)
  else if (s0 <? 194)%N || (244 <? s0)%N then (RuneError, 1)
  else if S (length s) <? lead_size s0 then (RuneError, 1)
  else
    let s1 := byte_at s 0 in
    if (s1 <? lead_lo s0)%N || (lead_hi s0 <? s1)%N then (RuneError, 1)
    else if lead_size s0 <=? 2 then
      (N.lor (N.shiftl (N.land s0 31) 6) (N.land s1 63), 2)
    else
      let s2 := byte_at s 1 in
      if (s2 <? 128)%N || (191 <? s2)%N then (RuneError, 1)
      else if lead_size s0 <=? 3 then
        (N.lor (N.lor (N.shiftl (N.land s0 15) 12)
                  (N.shiftl (N.land s1 63) 6)) (N.land s2 63), 3)
      else
        let s3 := byte_at s 2 in
        if (s3 <? 128)%N || (191 <? s3)%N then (RuneError, 1)
        else
          (N.lor (N.lor (N.lor (N.shiftl (N.land s0 7) 18)
                           (N.shiftl (N.land s1 63) 12))
                    (N.shiftl (N.land s2 63) 6)) (N.land s3 63), 4).

(** Where [DecodeLastRuneInString] starts to decode. *)
Definition last_start (s : bytes) : nat :=
  let end_ := length s in
  let lim := Z.max (Z.of_nat end_ - Z.of_nat UTFMax) 0 in
  let start := back_to_start s lim UTFMax (Z.of_nat (end_ - 1) - 1) in
  Z.to_nat (if (start <? 0)%Z then 0%Z else start).

(** The shapes of the encodings of [space_encodings]. *)
Inductive encoding_shape : bytes -> Prop :=
| shape1 c : (N_of_ascii c <? RuneSelf)%N = true -> encoding_shape [c]
| shape2 c0 c1 :
    (N_of_ascii c1 <? RuneSelf)%N = false ->
    RuneStart (N_of_ascii c0) = true ->
    encoding_shape [c0; c1]
| shape3 c0 c1 c2 :
    (N_of_ascii c2 <? RuneSelf)%N = false ->
    RuneStart (N_of_ascii c0) = true ->
    RuneStart (N_of_ascii c1) = false ->
    encoding_shape [c0; c1; c2].

(** What follows the bytes still to be looked at does not start with a
    continuation byte. *)
Definition tail_ok (s : bytes) (i : nat) : Prop :=
  i = length s \/ RuneStart (byte_at s i) = true.

(** ** Further notions *)

(** [s] without its backslashes. *)
Fixpoint drop_backslashes (s : string) : string :=
  match s with
  | EmptyString => EmptyString
  | String c s' =>
      if Ascii.eqb c "\" then drop_backslashes s'
      else String c (drop_backslashes s')
  end.

(** A URL with a backslash put before every [?], [=] and [&]. *)
Fixpoint escape_specials (s : string) : string :=
  match s with
  | EmptyString => EmptyString
  | String c s' =>
      if special c then String "\" (String c (escape_specials s'))
      else String c (escape_specials s')
  end.

(** The last byte of [s] is a backslash. *)
Fixpoint ends_with_backslash (s : string) : bool :=
  match s with
  | EmptyString => false
  | String c EmptyString => Ascii.eqb c "\"
  | String _ s' => ends_with_backslash s'
  end.

(** Bytes that [Values.Encode] can write. *)
Definition query_byte (c : ascii) : bool :=
  escaped_byte c || Ascii.eqb c "=" || Ascii.eqb c "&".

(** A text written by one call of [fmt.Printf] that starts with the mark
    of a URL (a text, not a line of the output: a URL or a parameter
    name that holds a newline makes a text of several lines). *)
Definition is_header_text (line : string) : bool :=
  strings_HasPrefix line (green +:+ "[REFLECTED]").

(** * Part III: properties *)

#[local] Set Warnings "-clear-no-such-hyp".
Local Arguments String.append !_ _ /.
Local Arguments Ascii.eqb : simpl never.

(** ** Strings *)

Lemma append_assoc (a b c : string) : (a +:+ b) +:+ c = a +:+ b +:+ c.
Proof. induction a; cbn; congruence. Qed.

Lemma append_nil_r (a : string) : a +:+ EmptyString = a.
Proof. induction a; cbn; congruence. Qed.

Lemma strings_HasPrefix_spec s pre :
  strings_HasPrefix s pre = true <-> exists after, s = pre +:+ after.
Proof.
  revert s. induction pre as [|a pre IH]; intros s; cbn.
  - split; eauto.
  - destruct s as [|b s]; [split; [done|by intros [? ?]]|].
    rewrite andb_true_iff, IH. split.
    + intros [->%Ascii.eqb_eq [after ->]]. eauto.
    + intros [after [= -> ->]]. split; [apply Ascii.eqb_refl|eauto].
Qed.

(** [strings.Contains] decides the substring relation. *)
Lemma strings_Contains_spec s sub :
  strings_Contains s sub = true <-> substring sub s.
Proof.
  unfold substring. induction s as [|c s IH].
  - cbn. rewrite orb_false_r, strings_HasPrefix_spec. split.
    + intros [after ->]. by exists EmptyString, after.
    + intros ([|??] & after & Heq); [by eauto|done].
  - cbn [strings_Contains]. rewrite orb_true_iff, IH, strings_HasPrefix_spec.
    split.
    + intros [[after ->]|(before & after & ->)].
      * by exists EmptyString, after.
      * by exists (String c before), after.
    + intros ([|b before] & after & Heq); cbn in Heq.
      * left. eauto.
      * right. injection Heq as -> ->. eauto.
Qed.

Lemma strings_Contains_cons c s p :
  strings_Contains (String c s) p
  = strings_HasPrefix (String c s) p || strings_Contains s p.
Proof. done. Qed.

Lemma substring_empty sub : substring sub EmptyString -> sub = EmptyString.
Proof. intros ([|??] & after & Heq); [by destruct sub|done]. Qed.

Lemma string_length_ind (P : string -> Prop) :
  (forall s, (forall t, String.length t < String.length s -> P t) -> P s) ->
  forall s, P s.
Proof.
  intros IH s. remember (String.length s) as n eqn:Hn.
  revert s Hn. induction (lt_wf n) as [n _ IHn]. intros s ->.
  apply IH. intros t Ht. by eapply IHn.
Qed.

Lemma string_forall_impl (P Q : ascii -> bool) s :
  (forall c, P c = true -> Q c = true) ->
  string_forall P s = true -> string_forall Q s = true.
Proof.
  intros HPQ. induction s as [|c s IH]; [done|]. cbn.
  intros [?%HPQ ?%IH]%andb_true_iff. by apply andb_true_iff.
Qed.

Lemma string_forall_app P s t :
  string_forall P (s +:+ t) = string_forall P s && string_forall P t.
Proof. induction s as [|c s IH]; [done|]. cbn. by rewrite IH, andb_assoc. Qed.

Lemma strings_Cut_app sep a b :
  without sep a = true ->
  strings_Cut (a +:+ String sep b) sep = (a, b, true).
Proof.
  induction a as [|c a IH]; cbn.
  { by rewrite Ascii.eqb_refl. }
  intros [Hc Ha%IH]%andb_true_iff. apply negb_true_iff in Hc.
  by rewrite Hc, Ha.
Qed.

Lemma strings_Contains_byte s c :
  without c s = true -> strings_Contains s (String c EmptyString) = false.
Proof.
  induction s as [|x s IH]; [done|]. cbn.
  intros [Hx Hs%IH]%andb_true_iff. apply negb_true_iff in Hx.
  rewrite Ascii.eqb_sym in Hx. by rewrite Hx, Hs.
Qed.

(** Case analysis on the comparisons of bytes in a goal. *)
Ltac eqb_step :=
  first
    [ progress unfold special
    | progress cbn
    | match goal with
      | |- context [Ascii.eqb ?a ?b] =>
          destruct (Ascii.eqb_spec a b); subst; try congruence
      end ].

Ltac eqb_cases := repeat eqb_step.

Ltac hide_Contains :=
  repeat match goal with
  | |- context [strings_Contains ?a ?b] =>
      let v := fresh "b" in generalize (strings_Contains a b); intros v
  end.

Ltac bool_cases :=
  repeat match goal with
  | b : bool |- _ => destruct b
  end; try done.

(** ** URL normalization *)

Example normalizeURL_scenario4 :
  normalizeURL "http://x/a\?q\=1\&r\=2" = "http://x/a?q=1&r=2".
Proof. reflexivity. Qed.

Lemma normalizeURL_unfold s : normalizeURL s = normalizeURL_step s.
Proof.
  destruct s as [|c [|d [|e r]]]; try done;
    unfold normalizeURL_step, normalizeURL, Replacer.Replace, special;
    cbn; eqb_cases; done.
Qed.

Local Arguments normalizeURL : simpl never.

Lemma has_escape_cons c y :
  has_escape (String c y) = escape_here (String c y) || has_escape y.
Proof.
  unfold has_escape, escape_here, special.
  rewrite !strings_Contains_cons. hide_Contains.
  destruct y as [|d r]; cbn; eqb_cases; bool_cases.
Qed.

Lemma double_escape_cons c x :
  double_escape (String c x)
  = double_escape_here (String c x) || double_escape x.
Proof.
  unfold double_escape, double_escape_here.
  rewrite !strings_Contains_cons. hide_Contains.
  destruct x as [|d [|e [|f r]]]; cbn; eqb_cases; bool_cases.
Qed.

Lemma first_special_normalizeURL r :
  first_special (normalizeURL r)
  = first_special r
    || match r with
       | String c (String d r2) =>
           Ascii.eqb c "\"
           && (special d
               || (Ascii.eqb d "\" && match r2 with
                                      | String e _ => Ascii.eqb e "?"
                                      | _ => false
                                      end))
       | _ => false
       end.
Proof.
  rewrite normalizeURL_unfold.
  destruct r as [|c [|d [|e r]]]; eqb_cases; done.
Qed.

Lemma escape_here_ne c y : c <> "\"%char -> escape_here (String c y) = false.
Proof. intros. destruct y; eqb_cases; done. Qed.

Lemma double_escape_here_ne c y :
  c <> "\"%char -> double_escape_here (String c y) = false.
Proof. intros. destruct y as [|? [|? ?]]; eqb_cases; done. Qed.

Lemma double_escape_here_ne2 c d y :
  d <> "\"%char -> double_escape_here (String c (String d y)) = false.
Proof. intros. destruct y as [|? ?]; eqb_cases; done. Qed.

Lemma special_ne c : special c = true -> c <> "\"%char.
Proof. intros Hc ->. done. Qed.

Local Arguments has_escape : simpl never.
Local Arguments double_escape : simpl never.
Local Arguments escape_here : simpl never.
Local Arguments double_escape_here : simpl never.

(** The output of [normalizeURL] still holds an escape exactly when the
    input holds an escape behind a backslash. *)
Lemma has_escape_normalizeURL x :
  has_escape (normalizeURL x) = double_escape x.
Proof.
  induction x as [x IH] using string_length_ind.
  destruct x as [|c r]; [done|].
  rewrite double_escape_cons, normalizeURL_unfold. cbn.
  destruct (Ascii.eqb_spec c "\") as [->|Hc].
  2:{ by rewrite has_escape_cons, IH, escape_here_ne, double_escape_here_ne
        by (done || cbn; lia). }
  destruct r as [|d r']; [done|].
  destruct (special d) eqn:Hd.
  { apply special_ne in Hd.
    by rewrite has_escape_cons, double_escape_cons, IH, escape_here_ne,
      double_escape_here_ne2, double_escape_here_ne by (done || cbn; lia). }
  destruct (Ascii.eqb_spec d "\") as [->|Hd'].
  2:{ rewrite has_escape_cons, IH, double_escape_here_ne2 by (done || cbn; lia).
      rewrite (normalizeURL_unfold (String d r')).
      unfold escape_here. revert Hd. eqb_cases; done. }
  destruct r' as [|e r'']; [done|].
  destruct (Ascii.eqb_spec e "?") as [->|He].
  { rewrite has_escape_cons, !double_escape_cons, IH by (cbn; lia).
    unfold escape_here, double_escape_here.
    destruct (normalizeURL r''), r'' as [|? [|? ?]]; eqb_cases; done. }
  rewrite has_escape_cons, IH by (cbn; lia).
  f_equal. unfold escape_here.
  change (match normalizeURL ?y with
          | String d _ => ?a && special d
          | EmptyString => false
          end)
    with (a && first_special (normalizeURL y)).
  rewrite first_special_normalizeURL. unfold double_escape_here.
  destruct r'' as [|? ?]; eqb_cases; done.
Qed.

(** A string without escapes is left as it is. *)
Lemma normalizeURL_fixed y : has_escape y = false -> normalizeURL y = y.
Proof.
  induction y as [|c r IH]; [done|].
  rewrite has_escape_cons, normalizeURL_unfold. intros [He Hr]%orb_false_elim.
  specialize (IH Hr). cbn.
  destruct (Ascii.eqb_spec c "\") as [->|Hc]; [|by rewrite IH].
  destruct r as [|d r']; [done|].
  assert (special d = false) as ->
    by (revert He; unfold escape_here; eqb_cases; done).
  destruct (Ascii.eqb_spec d "\") as [->|Hd]; [|by rewrite IH].
  destruct r' as [|e r'']; [by rewrite IH|].
  destruct (Ascii.eqb_spec e "?") as [->|]; [|by rewrite IH].
  rewrite has_escape_cons in Hr. apply orb_false_elim in Hr as [Hr _]. done.
Qed.

(** Resolving an escape shortens the string. *)
Lemma normalizeURL_length y :
  String.length (normalizeURL y) <= String.length y
  /\ (has_escape y = true -> String.length (normalizeURL y) < String.length y).
Proof.
  induction y as [y IH] using string_length_ind.
  destruct y as [|c r]; [done|].
  rewrite has_escape_cons, normalizeURL_unfold. cbn.
  pose proof (IH r ltac:(cbn; lia)) as [IH1 IH2].
  destruct (Ascii.eqb_spec c "\") as [->|Hc].
  2:{ rewrite escape_here_ne by done. cbn. split; [lia|]. intros ?%IH2. lia. }
  destruct r as [|d r']; [done|].
  destruct (special d) eqn:Hd.
  { pose proof (IH r' ltac:(cbn; lia)) as [? _]. cbn. split; intros; lia. }
  assert (escape_here (String "\" (String d r')) = false) as ->
    by (unfold escape_here; by rewrite Hd).
  destruct (Ascii.eqb_spec d "\") as [->|Hd'].
  2:{ cbn in *. split; [lia|]. intros ?%IH2. lia. }
  destruct r' as [|e r'']; [cbn in *; split; [lia|intros ?%IH2; lia]|].
  destruct (Ascii.eqb_spec e "?") as [->|].
  { pose proof (IH r'' ltac:(cbn; lia)) as [? _]. cbn. split; intros; lia. }
  cbn in *. split; [lia|]. intros ?%IH2. lia.
Qed.

(** C2, as the code has it: normalizing twice gives the same as
    normalizing once exactly for the inputs that hold none of the byte
    sequences backslash backslash [=], backslash backslash [&] and
    backslash backslash backslash [?]. *)
Theorem normalizeURL_idempotent_iff x :
  normalizeURL (normalizeURL x) = normalizeURL x <-> double_escape x = false.
Proof.
  rewrite <-has_escape_normalizeURL. split.
  - intros Heq. destruct (has_escape (normalizeURL x)) eqn:He; [|done].
    apply normalizeURL_length in He. rewrite Heq in He. lia.
  - apply normalizeURL_fixed.
Qed.

(** C2 fails as stated: backslash backslash [=] normalizes to backslash
    [=], and that to [=]. *)
Lemma normalizeURL_not_idempotent :
  normalizeURL "\\=" = "\="
  /\ normalizeURL (normalizeURL "\\=") = "="
  /\ normalizeURL (normalizeURL "\\=") <> normalizeURL "\\=".
Proof. split_and!; [reflexivity..|discriminate]. Qed.

(** ** Queries: escaping, parsing and encoding *)

Lemma upperhex_escaped c :
  escaped_byte (upperhex (N.shiftr (N_of_ascii c) 4)) = true
  /\ escaped_byte (upperhex (N.land (N_of_ascii c) 15)) = true.
Proof. destruct c as [[] [] [] [] [] [] [] []]; split; reflexivity. Qed.

Lemma url_QueryEscape_bytes s :
  string_forall escaped_byte (url_QueryEscape s) = true.
Proof.
  induction s as [|c s IH]; [done|]. cbn [url_QueryEscape].
  destruct (shouldEscape c) eqn:Hc.
  - destruct (Ascii.eqb c " "); cbn [string_forall]; [by rewrite IH|].
    destruct (upperhex_escaped c) as [-> ->]. by rewrite IH.
  - cbn [string_forall]. unfold escaped_byte at 1. by rewrite Hc, IH.
Qed.

Lemma unescape_byte c :
  shouldEscape c = true -> Ascii.eqb c " " = false ->
  ishex (upperhex (N.shiftr (N_of_ascii c) 4)) = true
  /\ ishex (upperhex (N.land (N_of_ascii c) 15)) = true
  /\ ascii_of_N
       (N.lor (N.shiftl (unhex (upperhex (N.shiftr (N_of_ascii c) 4))) 4)
          (unhex (upperhex (N.land (N_of_ascii c) 15)))) = c.
Proof. destruct c as [[] [] [] [] [] [] [] []]; intros; try done. Qed.

Lemma unreserved_byte c :
  shouldEscape c = false -> Ascii.eqb c "%" = false /\ Ascii.eqb c "+" = false.
Proof. destruct c as [[] [] [] [] [] [] [] []]; intros; try done. Qed.

Lemma url_QueryUnescape_Escape s :
  url_QueryUnescape (url_QueryEscape s) = Some s.
Proof.
  induction s as [|c s IH]; [done|]. cbn [url_QueryEscape].
  destruct (shouldEscape c) eqn:Hc.
  - destruct (Ascii.eqb_spec c " ") as [->|Hsp].
    + cbn. by rewrite IH.
    + destruct (unescape_byte c) as (Ha & Hb & Heq); [done|by apply Ascii.eqb_neq|].
      cbn [url_QueryUnescape]. change (Ascii.eqb "%" "%") with true. cbn iota.
      by rewrite Ha, Hb, IH, Heq.
  - destruct (unreserved_byte c Hc) as [H1 H2].
    cbn [url_QueryUnescape]. by rewrite H1, H2, IH.
Qed.

Lemma escaped_byte_not_separator x :
  escaped_byte x = true ->
  Ascii.eqb x "&" = false /\ Ascii.eqb x "=" = false /\ Ascii.eqb x ";" = false.
Proof. destruct x as [[] [] [] [] [] [] [] []]; intros; try done. Qed.

Lemma url_QueryEscape_without c s :
  c = "&"%char \/ c = "="%char \/ c = ";"%char ->
  without c (url_QueryEscape s) = true.
Proof.
  intros Hc. eapply string_forall_impl; [|apply url_QueryEscape_bytes].
  intros x (? & ? & ?)%escaped_byte_not_separator.
  destruct Hc as [->|[->| ->]]; by apply negb_true_iff.
Qed.

Lemma query_pieces_nil query : query_pieces query = [] <-> query = EmptyString.
Proof.
  destruct query as [|c q]; [done|]. cbn.
  destruct (Ascii.eqb c "&"); [done|]. by destruct (query_pieces q).
Qed.

(** The loop of [parseQuery] cuts the pieces off with [strings.Cut]. *)
Lemma query_pieces_Cut query :
  query <> EmptyString ->
  query_pieces query
  = (strings_Cut query "&").1.1 :: query_pieces (strings_Cut query "&").1.2.
Proof.
  induction query as [|c q IH]; [done|]. intros _. cbn.
  destruct (Ascii.eqb c "&"); [done|].
  destruct q as [|d q]; [done|].
  rewrite IH by done. by destruct (strings_Cut (String d q) "&") as [[??]?].
Qed.

Lemma query_pieces_single p :
  p <> EmptyString -> without "&" p = true -> query_pieces p = [p].
Proof.
  induction p as [|c p IH]; [done|]. intros _. cbn.
  intros [Hc Hp]%andb_true_iff. apply negb_true_iff in Hc. rewrite Hc.
  destruct p as [|d p]; [done|]. by rewrite IH.
Qed.

Lemma query_pieces_app p rest :
  without "&" p = true ->
  query_pieces (p +:+ String "&" rest) = p :: query_pieces rest.
Proof.
  induction p as [|c p IH]; [done|]. cbn.
  intros [Hc Hp]%andb_true_iff. apply negb_true_iff in Hc.
  by rewrite Hc, IH.
Qed.

Lemma join_amp_cons p q ps :
  join_amp (p :: q :: ps) = p +:+ "&" +:+ join_amp (q :: ps).
Proof.
  cbn. revert p q. induction ps as [|x ps IH]; intros p q; [done|].
  cbn. rewrite IH, (IH q x). by rewrite !append_assoc.
Qed.

Lemma query_pieces_join ps :
  Forall (fun p => p <> EmptyString /\ without "&" p = true) ps ->
  query_pieces (join_amp ps) = ps.
Proof.
  induction 1 as [|p ps [Hne Hamp] Hps IH]; [done|].
  destruct ps as [|q ps].
  - by apply query_pieces_single.
  - rewrite join_amp_cons. change ("&" +:+ ?x) with (String "&" x).
    by rewrite query_pieces_app, IH.
Qed.

(** What the loop of [parseQuery] does with a pair that [Encode] wrote. *)
Lemma parseQuery_piece_encoded m k v :
  parseQuery_piece m (url_QueryEscape k +:+ "=" +:+ url_QueryEscape v)
  = Values_Add m k v.
Proof.
  unfold parseQuery_piece.
  rewrite strings_Contains_byte.
  2:{ unfold without. rewrite string_forall_app. apply andb_true_iff. split.
      - apply url_QueryEscape_without; auto.
      - cbn. apply url_QueryEscape_without; auto. }
  change ("=" +:+ ?x) with (String "=" x).
  rewrite strings_Cut_app by (apply url_QueryEscape_without; auto).
  rewrite !url_QueryUnescape_Escape.
  by destruct (url_QueryEscape k).
Qed.

Lemma Values_Add_wf m k v : Values_wf m -> Values_wf (Values_Add m k v).
Proof.
  intros Hm k'. unfold Values_Add. destruct (decide (k = k')) as [->|].
  - rewrite lookup_insert_eq. by destruct (default [] (m !! k')).
  - by rewrite lookup_insert_ne.
Qed.

Lemma parseQuery_piece_wf m piece :
  Values_wf m -> Values_wf (parseQuery_piece m piece).
Proof.
  intros Hm. unfold parseQuery_piece.
  destruct (strings_Contains piece ";"); [done|].
  destruct (String.eqb piece EmptyString); [done|].
  destruct (strings_Cut piece "=") as [[key value] ?].
  destruct (url_QueryUnescape key); [|done].
  destruct (url_QueryUnescape value); [|done].
  by apply Values_Add_wf.
Qed.

Lemma parseQuery_wf m query : Values_wf m -> Values_wf (parseQuery m query).
Proof.
  unfold parseQuery. revert m.
  induction (query_pieces query) as [|p ps IH]; intros m Hm; [done|].
  cbn. by apply IH, parseQuery_piece_wf.
Qed.

Lemma Values_Set_wf m k v : Values_wf m -> Values_wf (Values_Set m k v).
Proof.
  intros Hm k'. unfold Values_Set. destruct (decide (k = k')) as [->|].
  - by rewrite lookup_insert_eq.
  - by rewrite lookup_insert_ne.
Qed.

Lemma add_all_lookup kvs m k :
  add_all kvs m !! k
  = match values_of k kvs with
    | [] => m !! k
    | vs => Some (default [] (m !! k) ++ vs)
    end.
Proof.
  unfold add_all, values_of. revert m.
  induction kvs as [|[k0 v0] kvs IH]; intros m; [done|].
  cbn [fold_left]. rewrite IH. cbn [fst snd]. unfold Values_Add.
  destruct (decide (k0 = k)) as [->|Hne].
  - rewrite filter_cons_True by done. rewrite lookup_insert_eq. cbn.
    destruct ((filter _ kvs).*2); [done|]. by rewrite <-app_assoc.
  - rewrite filter_cons_False by done. by rewrite lookup_insert_ne.
Qed.

Lemma values_of_same k vs :
  values_of k ((fun v => (k, v)) <$> vs) = vs.
Proof.
  unfold values_of. induction vs as [|v vs IH]; [done|].
  rewrite fmap_cons, filter_cons_True, fmap_cons by done. cbn. by rewrite IH.
Qed.

Lemma values_of_other k k0 vs :
  k0 <> k -> values_of k ((fun v => (k0, v)) <$> vs) = [].
Proof.
  intros Hne. unfold values_of. induction vs as [|v vs IH]; [done|].
  by rewrite fmap_cons, filter_cons_False.
Qed.

Lemma values_of_app k kvs1 kvs2 :
  values_of k (kvs1 ++ kvs2) = values_of k kvs1 ++ values_of k kvs2.
Proof. unfold values_of. by rewrite filter_app, fmap_app. Qed.

Lemma values_of_pairs_of q keys k :
  NoDup keys ->
  values_of k (pairs_of q keys)
  = if decide (k ∈ keys) then default [] (q !! k) else [].
Proof.
  induction 1 as [|k0 keys Hk0 Hnd IH].
  { by rewrite decide_False by apply not_elem_of_nil. }
  change (pairs_of q (k0 :: keys))
    with (((fun v => (k0, v)) <$> default [] (q !! k0)) ++ pairs_of q keys).
  rewrite values_of_app, IH.
  destruct (decide (k0 = k)) as [->|Hne].
  - rewrite values_of_same.
    rewrite (decide_True (P := k ∈ k :: keys)) by (apply elem_of_cons; by left).
    rewrite decide_False by done. by rewrite app_nil_r.
  - rewrite values_of_other by done. cbn. destruct (decide (k ∈ keys)).
    + by rewrite decide_True by (apply elem_of_cons; by right).
    + rewrite decide_False; [done|]. rewrite elem_of_cons. naive_solver.
Qed.

Lemma sorted_keys_elem q k : k ∈ sorted_keys q <-> is_Some (q !! k).
Proof.
  unfold sorted_keys. by rewrite merge_sort_Permutation, elem_of_elements, elem_of_dom.
Qed.

Lemma sorted_keys_NoDup q : NoDup (sorted_keys q).
Proof. unfold sorted_keys. rewrite merge_sort_Permutation. apply NoDup_elements. Qed.

Lemma sorted_keys_sorted q : StronglySorted String.le (sorted_keys q).
Proof. apply StronglySorted_merge_sort; apply _. Qed.

Lemma add_all_pairs_of q :
  Values_wf q -> add_all (pairs_of q (sorted_keys q)) ∅ = q.
Proof.
  intros Hq. apply map_eq. intros k.
  rewrite add_all_lookup, values_of_pairs_of by apply sorted_keys_NoDup.
  rewrite lookup_empty. case_decide as Hk.
  - apply sorted_keys_elem in Hk as [vs Hvs]. rewrite Hvs. cbn.
    destruct vs; [by destruct (Hq k)|done].
  - rewrite sorted_keys_elem in Hk. symmetry. by apply eq_None_not_Some.
Qed.

Lemma Encode_pairs_pairs_of q :
  Encode_pairs q = encode_pair <$> pairs_of q (sorted_keys q).
Proof.
  unfold Encode_pairs, pairs_of. induction (sorted_keys q) as [|k ks IH]; [done|].
  rewrite !bind_cons, fmap_app, IH. f_equal. by rewrite <-list_fmap_compose.
Qed.

Lemma fold_parseQuery_piece_encoded kvs m :
  fold_left parseQuery_piece (encode_pair <$> kvs) m = add_all kvs m.
Proof.
  unfold add_all. revert m. induction kvs as [|[k v] kvs IH]; intros m; [done|].
  rewrite fmap_cons. cbn [fold_left].
  change (encode_pair (k, v))
    with (url_QueryEscape k +:+ "=" +:+ url_QueryEscape v).
  by rewrite parseQuery_piece_encoded, IH.
Qed.

(** Parsing what [Encode] wrote gives the [Values] back. *)
Lemma parseQuery_Encode q :
  Values_wf q -> parseQuery ∅ (Values_Encode q) = q.
Proof.
  intros Hq. unfold parseQuery, Values_Encode.
  rewrite query_pieces_join.
  - by rewrite Encode_pairs_pairs_of, fold_parseQuery_piece_encoded, add_all_pairs_of.
  - rewrite Encode_pairs_pairs_of. apply Forall_fmap, Forall_forall.
    intros [k v] _. unfold encode_pair. cbn. split.
    + by destruct (url_QueryEscape k).
    + unfold without. rewrite string_forall_app. apply andb_true_iff. split.
      * apply url_QueryEscape_without; auto.
      * cbn. apply url_QueryEscape_without; auto.
Qed.

(** ** Grouping the results *)

Lemma group_snoc rs r : group (rs ++ [r]) = group_step (group rs) r.
Proof. unfold group. by rewrite fold_left_app. Qed.

Lemma group_step_lookup g r u :
  group_step g r !! u
  = if decide (u = URL r)
    then Some (<[Param r := Chars r]> (default ∅ (g !! URL r)))
    else g !! u.
Proof.
  unfold group_step. case_decide as Hu.
  - subst u. rewrite lookup_insert_eq.
    destruct (g !! URL r) eqn:Hg; [by rewrite Hg|].
    by rewrite lookup_insert_eq.
  - rewrite lookup_insert_ne by done.
    destruct (g !! URL r); [done|]. by rewrite lookup_insert_ne.
Qed.

Lemma entry_group_step g r u p :
  entry (group_step g r) u p
  = if decide (u = URL r /\ p = Param r) then Some (Chars r) else entry g u p.
Proof.
  unfold entry. rewrite group_step_lookup.
  destruct (decide (u = URL r)) as [->|Hu]; cbn.
  - destruct (decide (p = Param r)) as [->|Hp].
    + rewrite lookup_insert_eq. by rewrite decide_True.
    + rewrite lookup_insert_ne by done. rewrite decide_False by naive_solver.
      by destruct (g !! URL r).
  - by rewrite decide_False by naive_solver.
Qed.

Lemma group_lookup_None rs u :
  group rs !! u = None <-> forall r, r ∈ rs -> URL r <> u.
Proof.
  induction rs as [|r rs IH] using rev_ind.
  - split; [by intros _ r ?%elem_of_nil|done].
  - rewrite group_snoc, group_step_lookup. case_decide as Hu.
    + split; [done|]. intros Hall. destruct (Hall r); [set_solver|done].
    + rewrite IH. set_solver.
Qed.

Lemma entry_group_Some rs u p cs :
  entry (group rs) u p = Some cs ->
  exists r, r ∈ rs /\ URL r = u /\ Param r = p /\ Chars r = cs.
Proof.
  induction rs as [|r rs IH] using rev_ind; [done|].
  rewrite group_snoc, entry_group_step. case_decide as Hk.
  - intros [= <-]. exists r. set_solver.
  - intros (r' & ? & ?)%IH. exists r'. set_solver.
Qed.

Lemma entry_group_agree rs r :
  agree rs -> r ∈ rs -> entry (group rs) (URL r) (Param r) = Some (Chars r).
Proof.
  induction rs as [|r' rs IH] using rev_ind; [by intros _ ?%elem_of_nil|].
  intros Hag Hr. rewrite group_snoc, entry_group_step. case_decide as Hk.
  - f_equal. destruct Hk. apply Hag; set_solver.
  - apply IH.
    + intros r1 r2 ??. apply Hag; set_solver.
    + apply elem_of_app in Hr as [?|Heq%list_elem_of_singleton]; naive_solver.
Qed.

Lemma group_inner_nonempty rs u m : group rs !! u = Some m -> m <> ∅.
Proof.
  induction rs as [|r rs IH] using rev_ind; [done|].
  rewrite group_snoc, group_step_lookup. case_decide; [|done].
  intros [= <-]. apply insert_non_empty.
Qed.

Lemma entry_group_skip rs u p g :
  Forall (fun r => ~ (URL r = u /\ Param r = p)) rs ->
  entry (fold_left group_step rs g) u p = entry g u p.
Proof.
  intros Hrs. revert g. induction Hrs as [|r rs Hr _ IH]; intros g; [done|].
  cbn [fold_left]. rewrite IH, entry_group_step.
  destruct (decide (u = URL r /\ p = Param r)) as [[-> ->]|]; [|done].
  by destruct Hr.
Qed.

Lemma group_permutation_agree rs rs' :
  agree rs -> rs ≡ₚ rs' -> group rs = group rs'.
Proof.
  intros Hag Hperm.
  assert (agree rs') as Hag'.
  { intros r1 r2 ??. apply Hag; by rewrite Hperm. }
  assert (forall u p, entry (group rs) u p = entry (group rs') u p) as Hentry.
  { intros u p. destruct (entry (group rs) u p) as [cs|] eqn:He.
    - apply entry_group_Some in He as (r & Hr & <- & <- & <-).
      symmetry. apply entry_group_agree; [done|by rewrite <-Hperm].
    - destruct (entry (group rs') u p) as [cs|] eqn:He'; [|done].
      apply entry_group_Some in He' as (r & Hr & <- & <- & <-).
      rewrite entry_group_agree in He; [done..|by rewrite Hperm]. }
  apply map_eq. intros u.
  destruct (group rs !! u) as [m|] eqn:Hm, (group rs' !! u) as [m'|] eqn:Hm'.
  - f_equal. apply map_eq. intros p. specialize (Hentry u p).
    unfold entry in Hentry. by rewrite Hm, Hm' in Hentry.
  - rewrite group_lookup_None in Hm'.
    assert (group rs !! u = None) as Hn; [|congruence].
    apply group_lookup_None. intros r Hr. apply Hm'. by rewrite <-Hperm.
  - rewrite group_lookup_None in Hm.
    assert (group rs' !! u = None) as Hn; [|congruence].
    apply group_lookup_None. intros r Hr. apply Hm. by rewrite Hperm.
  - done.
Qed.

(** C3, as the code has it: findings that agree (the same URL and
    parameter never carry two different character lists) give the same
    report in whatever order they are grouped; and of the findings for
    one URL and parameter the one that is grouped last stays, since
    [grouped[r.URL][r.Param] = r.Chars] overwrites; a URL and a
    parameter of no finding have no entry. *)
Theorem group_permutation :
  (forall rs rs', agree rs -> rs ≡ₚ rs' -> group rs = group rs')
  /\ (forall rs1 r rs2,
        Forall (fun r' => ~ (URL r' = URL r /\ Param r' = Param r)) rs2 ->
        entry (group (rs1 ++ r :: rs2)) (URL r) (Param r) = Some (Chars r))
  /\ (forall rs u p,
        Forall (fun r => ~ (URL r = u /\ Param r = p)) rs ->
        entry (group rs) u p = None).
Proof.
  split_and!.
  - apply group_permutation_agree.
  - intros rs1 r rs2 Hlast. unfold group.
    rewrite (assoc_L _ rs1 [r] rs2 : rs1 ++ r :: rs2 = (rs1 ++ [r]) ++ rs2).
    rewrite fold_left_app, entry_group_skip by done.
    fold (group (rs1 ++ [r])). rewrite group_snoc, entry_group_step.
    by destruct (decide (URL r = URL r /\ Param r = Param r)) as [|[]].
  - intros rs u p Hnone. unfold group. by rewrite entry_group_skip.
Qed.

Lemma group_permutation_witness :
  let r1 := mk_Result "http://x/a?q=1" "q" ["<"] in
  let r2 := mk_Result "http://x/a?q=1" "r" [">"] in
  let r3 := mk_Result "http://x/a?q=1" "q" [">"] in
  group [r1; r2] = group [r2; r1]
  /\ entry (group [r1; r3; r2]) "http://x/a?q=1" "q" = Some [">"].
Proof.
  intros r1 r2 r3. split.
  2:{ apply (proj1 (proj2 group_permutation) [r1] r3 [r2]).
      apply Forall_singleton. by intros [_ [=]]. }
  apply (proj1 group_permutation).
  - intros a b Ha Hb _ Hp.
    apply elem_of_cons in Ha as [->|Ha]; apply elem_of_cons in Hb as [->|Hb];
      try done;
      repeat match goal with
             | H : _ ∈ [_] |- _ => apply list_elem_of_singleton in H as ->
             | H : _ ∈ [] |- _ => by apply elem_of_nil in H
             end; done.
  - apply Permutation_swap.
Defined.

(** C3 fails as stated: two findings for the same URL and parameter with
    different character lists; the one grouped last stays. *)
Lemma group_order_matters :
  let r1 := mk_Result "http://x/a?q=1" "q" ["<"] in
  let r2 := mk_Result "http://x/a?q=1" "q" [">"] in
  [r1; r2] ≡ₚ [r2; r1] /\ group [r1; r2] <> group [r2; r1]
  /\ entry (group [r1; r2]) "http://x/a?q=1" "q" = Some [">"]
  /\ entry (group [r2; r1]) "http://x/a?q=1" "q" = Some ["<"].
Proof.
  intros r1 r2. split; [apply Permutation_swap|].
  split; [|split; vm_compute; reflexivity]. intros Heq.
  assert (entry (group [r1; r2]) "http://x/a?q=1" "q"
          = entry (group [r2; r1]) "http://x/a?q=1" "q") as He
    by (by rewrite Heq).
  vm_compute in He. discriminate.
Qed.

(** ** The detector, the prober and the workers *)

Lemma strings_Contains_empty s : strings_Contains s EmptyString = true.
Proof. by destruct s. Qed.

Lemma strings_Contains_of_empty sub :
  sub <> EmptyString -> strings_Contains EmptyString sub = false.
Proof. by destruct sub. Qed.

Lemma reflected_loop_filter body entries acc :
  reflected_loop body entries acc
  = acc ++ (filter (fun kv => entry_reflected body kv = true) entries).*1.
Proof.
  revert acc. induction entries as [|[k v] entries IH]; intros acc.
  { cbn. by rewrite app_nil_r. }
  cbn [reflected_loop]. destruct v as [|val vs].
  { rewrite filter_cons_False by done. apply IH. }
  fold (reflects body val). destruct (reflects body val) eqn:Hr.
  - rewrite filter_cons_True by done. rewrite IH. cbn. by rewrite <-app_assoc.
  - rewrite filter_cons_False by (cbn; congruence). apply IH.
Qed.

Section Program_facts.
Context `{Platform}.

Lemma doRequest_unfold target s :
  doRequest target s =
  match url_Parse target with
  | None => ((None, EmptyString), s)
  | Some _ =>
      let s' := mk_State (client_Do target (world s)).2 (requests s ++ [target]) in
      match (client_Do target (world s)).1 with
      | None => ((None, EmptyString), s')
      | Some r =>
          match Body r with
          | BodyNil => ((None, EmptyString), s')
          | BodyError => ((Some r, EmptyString), s')
          | BodyData data => ((Some r, data), s')
          end
      end
  end.
Proof.
  unfold doRequest, bind, ret, do_client.
  destruct (url_Parse target); [|done].
  destruct (client_Do target (world s)) as [[r|] w]; cbn; [|done].
  by destruct (Body r).
Qed.

(** The requests a call adds to the record. *)
Lemma doRequest_requests target s :
  requests (doRequest target s).2 = requests s ++ issued target.
Proof.
  rewrite doRequest_unfold. unfold issued. destruct (url_Parse target); cbn.
  - destruct (client_Do target (world s)) as [[r|] w]; cbn; [|done].
    by destruct (Body r).
  - by rewrite app_nil_r.
Qed.

Lemma findReflectedParams_unfold target s :
  findReflectedParams target s =
  let '((resp, body), s1) := doRequest target s in
  match resp with
  | None => ([], s1)
  | Some r =>
      if negb (strings_Contains (ContentType r) "html") then ([], s1)
      else
        match url_Parse target with
        | None => ([], s1)
        | Some u =>
            let '(entries, w) := range_Values (URL_Query u) (world s1) in
            ((filter (fun kv => entry_reflected body kv = true) entries).*1,
             mk_State w (requests s1))
        end
  end.
Proof.
  unfold findReflectedParams, bind, ret, do_range.
  destruct (doRequest target s) as [[[r|] body] s1]; [|done].
  destruct (negb _); [done|]. destruct (url_Parse target) as [u|]; [|done].
  destruct (range_Values _ _) as [entries w].
  by rewrite reflected_loop_filter.
Qed.


Lemma reflects_spec body val :
  reflects body val = true
  <-> substring val body
      \/ substring (url_QueryEscape val) body
      \/ substring (strings_ReplaceAll val " " "+") body.
Proof.
  unfold reflects. rewrite !orb_true_iff, !strings_Contains_spec. tauto.
Qed.

(** Which names [findReflectedParams] returns once the response is an
    HTML page: those whose first value is reflected, whatever the order
    of the iteration. *)
Lemma findReflectedParams_elem target s r body s1 u k :
  doRequest target s = ((Some r, body), s1) ->
  strings_Contains (ContentType r) "html" = true ->
  url_Parse target = Some u ->
  k ∈ (findReflectedParams target s).1
  <-> exists val vals,
        URL_Query u !! k = Some (val :: vals) /\ reflects body val = true.
Proof.
  intros Hreq Hhtml Hu. rewrite findReflectedParams_unfold, Hreq, Hhtml, Hu. cbn.
  pose proof (range_Values_perm (URL_Query u) (world s1)) as Hperm.
  destruct (range_Values _ _) as [entries w]. cbn in *.
  rewrite list_elem_of_fmap. split.
  - intros ([k' v] & -> & [Hr Hin]%list_elem_of_filter).
    rewrite Hperm in Hin. apply elem_of_map_to_list in Hin.
    destruct v as [|val vals]; [done|]. eauto.
  - intros (val & vals & Hk & Hr). exists (k, val :: vals). split; [done|].
    apply list_elem_of_filter. split; [done|].
    rewrite Hperm. by apply elem_of_map_to_list.
Qed.

(** C5: once the request has succeeded with an HTML page, a parameter
    with first value [val] is reported exactly when the body holds [val],
    its [url.QueryEscape] form, or [val] with [+] for each space.  (The
    equivalence holds for every first value, the empty one included.) *)
Theorem findReflectedParams_reflected target s r body s1 u k val vals :
  doRequest target s = ((Some r, body), s1) ->
  strings_Contains (ContentType r) "html" = true ->
  url_Parse target = Some u ->
  URL_Query u !! k = Some (val :: vals) ->
  k ∈ (findReflectedParams target s).1
  <-> substring val body
      \/ substring (url_QueryEscape val) body
      \/ substring (strings_ReplaceAll val " " "+") body.
Proof.
  intros Hreq Hhtml Hu Hk.
  rewrite (findReflectedParams_elem _ _ _ _ _ _ _ Hreq Hhtml Hu), <-reflects_spec.
  split; [|by eauto]. intros (val' & vals' & Hk' & Hr). congruence.
Qed.

Lemma findReflectedParams_NoDup target s :
  NoDup (findReflectedParams target s).1.
Proof.
  rewrite findReflectedParams_unfold.
  destruct (doRequest target s) as [[[r|] body] s1]; [|constructor].
  destruct (negb _); [constructor|].
  destruct (url_Parse target) as [u|]; [|constructor].
  pose proof (range_Values_perm (URL_Query u) (world s1)) as Hperm.
  destruct (range_Values _ _) as [entries w]. cbn in *.
  eapply sublist_NoDup; [|apply fmap_sublist, sublist_filter].
  rewrite Hperm. apply NoDup_fst_map_to_list.
Qed.

(** C4, as the code has it: two runs on the same URL that get the same
    response return the same names, each once, up to the order: the order
    is that of the [range] over a map, which Go leaves open. *)
Theorem findReflectedParams_same_names target s1 s2 :
  (client_Do target (world s1)).1 = (client_Do target (world s2)).1 ->
  (findReflectedParams target s1).1 ≡ₚ (findReflectedParams target s2).1
  /\ NoDup (findReflectedParams target s1).1.
Proof.
  intros Hsame. split; [|apply findReflectedParams_NoDup].
  apply NoDup_Permutation; [apply findReflectedParams_NoDup..|].
  intros k.
  assert ((doRequest target s1).1 = (doRequest target s2).1) as Hreq.
  { rewrite !doRequest_unfold. destruct (url_Parse target); [|done]. cbn.
    rewrite Hsame. destruct (client_Do target (world s2)).1 as [r|]; [|done].
    by destruct (Body r). }
  destruct (doRequest target s1) as [[resp body] s1'] eqn:H1.
  destruct (doRequest target s2) as [[resp2 body2] s2'] eqn:H2.
  cbn in Hreq. injection Hreq as <- <-.
  destruct resp as [r|].
  2:{ by rewrite !findReflectedParams_unfold, H1, H2. }
  destruct (strings_Contains (ContentType r) "html") eqn:Hhtml.
  2:{ by rewrite !findReflectedParams_unfold, H1, H2, Hhtml. }
  destruct (url_Parse target) as [u|] eqn:Hu.
  2:{ by rewrite !findReflectedParams_unfold, H1, H2, Hhtml, Hu. }
  by rewrite (findReflectedParams_elem _ _ _ _ _ _ _ H1 Hhtml Hu),
    (findReflectedParams_elem _ _ _ _ _ _ _ H2 Hhtml Hu).
Qed.

(** *** The probes *)

Lemma no_response_doRequest target s :
  no_response target s <-> (doRequest target s).1 = (None, EmptyString).
Proof.
  rewrite doRequest_unfold. unfold no_response.
  destruct (url_Parse target); cbn; [|by split; [|left]].
  destruct (client_Do target (world s)).1 as [r|]; [|by split; [|right; left]].
  destruct (Body r) eqn:Hb; cbn.
  - split; [done|]. intros _. right; right. by exists r.
  - split; [|done]. intros [?|[?|(r' & [= <-] & ?)]]; congruence.
  - split; [|done]. intros [?|[?|(r' & [= <-] & ?)]]; congruence.
Qed.

(** A request that fails leaves an empty body. *)
Lemma request_fails_body target s :
  request_fails target s -> (doRequest target s).1.2 = EmptyString.
Proof.
  intros [Hno|(r & Hr & Hbody)].
  - apply no_response_doRequest in Hno. by rewrite Hno.
  - rewrite doRequest_unfold. destruct (url_Parse target); [|done].
    by rewrite Hr, Hbody.
Qed.

Lemma checkAppend_unfold target param payload s :
  checkAppend target param payload s =
  match url_Parse target with
  | None => (false, s)
  | Some u =>
      let '((_, body), s') := doRequest (probe_target u param payload) s in
      (strings_Contains body payload, s')
  end.
Proof.
  unfold checkAppend, bind, ret. destruct (url_Parse target) as [u|]; [|done].
  fold (probe_query u param payload). fold (probe_target u param payload).
  by destruct (doRequest _ s) as [[? ?] ?].
Qed.

Lemma checkAppend_true target param payload s :
  (checkAppend target param payload s).1 = true
  <-> exists u, url_Parse target = Some u
        /\ substring payload (doRequest (probe_target u param payload) s).1.2.
Proof.
  rewrite checkAppend_unfold. destruct (url_Parse target) as [u|].
  - destruct (doRequest _ s) as [[? body] ?] eqn:Hreq. cbn.
    rewrite strings_Contains_spec. split.
    + intros Hsub. exists u. by rewrite Hreq.
    + intros (u' & [= <-] & Hsub). by rewrite Hreq in Hsub.
  - cbn. split; [done|]. by intros (? & ? & ?).
Qed.

Lemma testSpecialChars_loop_acc target param cs acc s :
  testSpecialChars_loop target param cs acc s
  = (acc ++ (testSpecialChars_loop target param cs [] s).1,
     (testSpecialChars_loop target param cs [] s).2).
Proof.
  revert acc s. induction cs as [|c cs IH]; intros acc s; cbn.
  { unfold ret. by rewrite app_nil_r. }
  unfold bind. destruct (checkAppend _ _ _ s) as [[] s1]; cbn.
  - rewrite (IH (acc ++ [c])), (IH [c]). cbn. by rewrite <-app_assoc.
  - apply IH.
Qed.

Lemma testSpecialChars_loop_cons target param c cs s :
  testSpecialChars_loop target param (c :: cs) [] s
  = let '(ok, s1) := checkAppend target param (payload_of c) s in
    ((if ok then [c] else []) ++ (testSpecialChars_loop target param cs [] s1).1,
     (testSpecialChars_loop target param cs [] s1).2).
Proof.
  cbn. unfold bind. fold (payload_of c).
  destruct (checkAppend _ _ _ s) as [[] s1]; cbn.
  - by rewrite testSpecialChars_loop_acc.
  - by destruct (testSpecialChars_loop _ _ _ _ _).
Qed.

Lemma testSpecialChars_loop_sublist target param cs s :
  (testSpecialChars_loop target param cs [] s).1 `sublist_of` cs.
Proof.
  revert s. induction cs as [|c cs IH]; intros s; [done|].
  rewrite testSpecialChars_loop_cons.
  destruct (checkAppend _ _ _ s) as [[] s1]; cbn.
  - by apply sublist_skip.
  - by apply sublist_cons.
Qed.

Lemma testSpecialChars_loop_elem target param cs s c :
  c ∈ (testSpecialChars_loop target param cs [] s).1
  <-> exists i, cs !! i = Some c
        /\ (checkAppend target param (payload_of c)
              (testSpecialChars_loop target param (take i cs) [] s).2).1 = true.
Proof.
  revert s. induction cs as [|c0 cs IH]; intros s.
  { cbn. split; [by intros ?%elem_of_nil|]. by intros (i & ? & _). }
  rewrite testSpecialChars_loop_cons.
  destruct (checkAppend target param (payload_of c0) s) as [ok s1] eqn:Hc0.
  cbn [fst]. rewrite elem_of_app, IH. split.
  - intros [Hin|(i & Hi & Hok)].
    + destruct ok; [|by apply elem_of_nil in Hin].
      apply list_elem_of_singleton in Hin as ->. exists 0.
      split; [done|]. change (take 0 (c0 :: cs)) with (@nil string).
      change (testSpecialChars_loop target param [] [] s) with (@nil string, s).
      cbn [snd]. by rewrite Hc0.
    + exists (S i). split; [done|]. cbn [take].
      by rewrite testSpecialChars_loop_cons, Hc0.
  - intros ([|i] & Hi & Hok).
    + injection Hi as ->. change (take 0 (c :: cs)) with (@nil string) in Hok.
      change (testSpecialChars_loop target param [] [] s)
        with (@nil string, s) in Hok.
      cbn [snd] in Hok. rewrite Hc0 in Hok. cbn in Hok. subst ok. left. set_solver.
    + right. exists i. split; [done|]. cbn [take] in Hok.
      by rewrite testSpecialChars_loop_cons, Hc0 in Hok.
Qed.

(** C6: a character is reported exactly when the body of the response to
    its own probe holds the payload [aprefix c asuffix] as it is, and the
    characters come in the order of the probe set. *)
Theorem testSpecialChars_unfiltered target param s :
  (forall c,
     c ∈ (testSpecialChars target param s).1
     <-> exists i u,
           chars !! i = Some c /\ url_Parse target = Some u
           /\ substring (payload_of c)
                (doRequest (probe_target u param (payload_of c))
                   (state_before_probe target param i s)).1.2)
  /\ (testSpecialChars target param s).1 `sublist_of` chars.
Proof.
  split; [|apply testSpecialChars_loop_sublist].
  intros c. unfold testSpecialChars. rewrite testSpecialChars_loop_elem.
  setoid_rewrite checkAppend_true. naive_solver.
Qed.

(** *** Failures *)

Lemma chars_NoDup : NoDup chars.
Proof. apply (bool_decide_unpack _). by vm_compute. Qed.

Lemma payload_of_nonempty c : payload_of c <> EmptyString.
Proof. done. Qed.

Lemma findReflectedParams_requests target s :
  requests (findReflectedParams target s).2 = requests s ++ issued target.
Proof.
  rewrite findReflectedParams_unfold. rewrite <-doRequest_requests.
  destruct (doRequest target s) as [[[r|] body] s1]; [|done].
  destruct (negb _); [done|]. destruct (url_Parse target) as [u|]; [|done].
  by destruct (range_Values _ _).
Qed.

Lemma checkAppend_requests target param payload s :
  requests (checkAppend target param payload s).2
  = requests s
    ++ match url_Parse target with
       | Some u => issued (probe_target u param payload)
       | None => []
       end.
Proof.
  rewrite checkAppend_unfold. destruct (url_Parse target) as [u|].
  - rewrite <-doRequest_requests. by destruct (doRequest _ s) as [[? ?] ?].
  - cbn. by rewrite app_nil_r.
Qed.

Lemma testSpecialChars_loop_requests target param cs s :
  requests (testSpecialChars_loop target param cs [] s).2
  = requests s
    ++ match url_Parse target with
       | Some u => c ← cs; issued (probe_target u param (payload_of c))
       | None => []
       end.
Proof.
  revert s. induction cs as [|c cs IH]; intros s.
  { cbn. destruct (url_Parse target); by rewrite app_nil_r. }
  rewrite testSpecialChars_loop_cons.
  pose proof (checkAppend_requests target param (payload_of c) s) as Hc.
  destruct (checkAppend _ _ _ s) as [ok s1]. cbn [snd] in *.
  rewrite IH, Hc. destruct (url_Parse target) as [u|]; cbn.
  - by rewrite <-app_assoc.
  - by rewrite !app_nil_r.
Qed.

(** X21: a request that leaves no response gives an empty list of
    names; a probe whose request fails in whatever way, the reading of
    the body included, gives a filtered character; and nothing is tried
    again: [findReflectedParams] issues its one request,
    [testSpecialChars] one request for each character. *)
Theorem failed_requests_give_nothing target param s :
  (no_response target s -> (findReflectedParams target s).1 = [])
  /\ requests (findReflectedParams target s).2 = requests s ++ issued target
  /\ (forall i c u,
        chars !! i = Some c -> url_Parse target = Some u ->
        request_fails (probe_target u param (payload_of c))
          (state_before_probe target param i s) ->
        c ∉ (testSpecialChars target param s).1)
  /\ requests (testSpecialChars target param s).2
     = requests s
       ++ match url_Parse target with
          | Some u => c ← chars; issued (probe_target u param (payload_of c))
          | None => []
          end.
Proof.
  split_and!.
  - intros Hfail%no_response_doRequest. rewrite findReflectedParams_unfold.
    destruct (doRequest target s) as [[resp body] s1]. cbn in Hfail.
    by injection Hfail as -> ->.
  - apply findReflectedParams_requests.
  - intros i c u Hi Hu Hfail%request_fails_body Hin.
    unfold testSpecialChars in Hin.
    apply testSpecialChars_loop_elem in Hin as (j & Hj & Hok).
    assert (j = i) as -> by (eapply NoDup_lookup; eauto using chars_NoDup).
    apply checkAppend_true in Hok as (u' & Hu' & Hsub).
    assert (u' = u) as -> by congruence.
    unfold state_before_probe in Hfail. rewrite Hfail in Hsub.
    apply substring_empty in Hsub. by apply payload_of_nonempty in Hsub.
  - apply testSpecialChars_loop_requests.
Qed.

Local Arguments testSpecialChars : simpl never.
Local Arguments findReflectedParams : simpl never.

(** *** The workers *)

Lemma worker_params_cons cleanURL p ps s :
  worker_params cleanURL (p :: ps) s
  = let '(cs, s1) := testSpecialChars cleanURL p s in
    ((if decide (0 < length cs) then [mk_Result cleanURL p cs] else [])
       ++ (worker_params cleanURL ps s1).1,
     (worker_params cleanURL ps s1).2).
Proof.
  cbn [worker_params]. unfold bind, ret.
  destruct (testSpecialChars cleanURL p s) as [cs s1].
  destruct (worker_params cleanURL ps s1) as [rest s2]. cbn [fst snd].
  by case_decide.
Qed.

Lemma worker_params_elem cleanURL ps s r :
  r ∈ (worker_params cleanURL ps s).1
  <-> exists i p,
        ps !! i = Some p
        /\ Chars r <> []
        /\ r = mk_Result cleanURL p
                 (testSpecialChars cleanURL p
                    (state_before_param cleanURL ps i s)).1.
Proof.
  unfold state_before_param. revert s.
  induction ps as [|p0 ps IH]; intros s.
  { cbn. split; [by intros ?%elem_of_nil|]. by intros (i & p & ? & _). }
  rewrite worker_params_cons.
  destruct (testSpecialChars cleanURL p0 s) as [cs s1] eqn:Hp0.
  cbn [fst]. rewrite elem_of_app, IH. split.
  - intros [Hin|(i & p & Hi & Hne & Hr)].
    + case_decide as Hlen; [|by apply elem_of_nil in Hin].
      apply list_elem_of_singleton in Hin as ->. exists 0, p0.
      split; [done|]. split. { cbn. destruct cs; [cbn in Hlen; lia|done]. }
      change (take 0 (p0 :: ps)) with (@nil string).
      change (worker_params cleanURL [] s) with (@nil Result, s).
      cbn [snd]. by rewrite Hp0.
    + exists (S i), p. split; [done|]. split; [done|]. cbn [take].
      by rewrite worker_params_cons, Hp0.
  - intros ([|i] & p & Hi & Hne & Hr).
    + injection Hi as ->. left.
      change (take 0 (p :: ps)) with (@nil string) in Hr.
      change (worker_params cleanURL [] s) with (@nil Result, s) in Hr.
      cbn [snd] in Hr. rewrite Hp0 in Hr. cbn [fst] in Hr. subst r.
      cbn in Hne. rewrite decide_True by (destruct cs; [done|cbn; lia]).
      set_solver.
    + right. exists i, p. split; [done|]. split; [done|]. cbn [take] in Hr.
      by rewrite worker_params_cons, Hp0 in Hr.
Qed.

Lemma worker_elem input s r :
  r ∈ (worker input s).1 ->
  exists rawURL s', rawURL ∈ input /\ r ∈ (worker_url rawURL s').1.
Proof.
  revert s. induction input as [|rawURL input IH]; intros s.
  { by intros ?%elem_of_nil. }
  cbn [worker]. unfold bind, ret.
  destruct (worker_url rawURL s) as [rs s1] eqn:Hurl.
  destruct (worker input s1) as [rs' s2] eqn:Hrest. cbn [fst].
  intros [Hin|Hin]%elem_of_app.
  - exists rawURL, s. rewrite Hurl. set_solver.
  - specialize (IH s1). rewrite Hrest in IH.
    destruct (IH Hin) as (raw & s' & ? & ?). exists raw, s'. set_solver.
Qed.

Lemma worker_url_elem rawURL s r :
  r ∈ (worker_url rawURL s).1
  <-> exists i p,
        let cleanURL := normalizeURL rawURL in
        let '(params, s1) := findReflectedParams cleanURL s in
        params !! i = Some p
        /\ Chars r <> []
        /\ r = mk_Result cleanURL p
                 (testSpecialChars cleanURL p
                    (state_before_param cleanURL params i s1)).1.
Proof.
  unfold worker_url, bind. cbn zeta.
  destruct (findReflectedParams _ s) as [params s1].
  apply worker_params_elem.
Qed.

(** A parameter with an empty first value is reported for every HTML
    page: the empty string occurs in every body, and the guard of the
    loop looks at the number of values, which is never zero. *)
Lemma findReflectedParams_empty_value target s r body s1 u k vals :
  doRequest target s = ((Some r, body), s1) ->
  strings_Contains (ContentType r) "html" = true ->
  url_Parse target = Some u ->
  URL_Query u !! k = Some (EmptyString :: vals) ->
  k ∈ (findReflectedParams target s).1.
Proof.
  intros Hreq Hhtml Hu Hk.
  apply (findReflectedParams_elem _ _ _ _ _ _ _ Hreq Hhtml Hu).
  exists EmptyString, vals. split; [done|].
  unfold reflects. by rewrite strings_Contains_empty.
Qed.

(** *** The report *)

(** C8: an entry of the final report comes from a worker that found the
    parameter reflected for that URL and whose probe of it gave the
    entry's characters, at least one; a reflected parameter whose probe
    gives no character sends no finding. *)
Theorem report_entries_are_probed :
  (forall rs u p cs,
      (forall r, r ∈ rs -> exists input s, r ∈ (worker input s).1) ->
      entry (group rs) u p = Some cs ->
      cs <> []
      /\ exists rawURL s i,
           u = normalizeURL rawURL
           /\ (findReflectedParams u s).1 !! i = Some p
           /\ cs = (testSpecialChars u p
                      (state_before_param u (findReflectedParams u s).1 i
                         (findReflectedParams u s).2)).1)
  /\ (forall rawURL s i p,
        let u := normalizeURL rawURL in
        (findReflectedParams u s).1 !! i = Some p ->
        (testSpecialChars u p
           (state_before_param u (findReflectedParams u s).1 i
              (findReflectedParams u s).2)).1 = [] ->
        forall r, r ∈ (worker_url rawURL s).1 -> Param r <> p).
Proof.
  split.
  - intros rs u p cs Hrs (r & Hr & <- & <- & <-)%entry_group_Some.
    destruct (Hrs r Hr) as (input & s0 & Hin).
    apply worker_elem in Hin as (rawURL & s & _ & Hin).
    apply worker_url_elem in Hin as (i & p & Hin). cbn zeta in Hin.
    destruct (findReflectedParams (normalizeURL rawURL) s) as [params s1] eqn:Hf.
    destruct Hin as (Hi & Hne & ->). cbn in *. split; [done|].
    exists rawURL, s, i. by rewrite Hf.
  - intros rawURL s i p u Hi Hnil r (j & p' & Hin)%worker_url_elem Hp.
    cbn zeta in Hin. fold u in Hin.
    pose proof (findReflectedParams_NoDup u s) as Hnd.
    destruct (findReflectedParams u s) as [params s1]. cbn [fst snd] in *.
    destruct Hin as (Hj & Hne & ->). cbn in Hp, Hne. subst p'.
    assert (j = i) as -> by (eapply NoDup_lookup; eauto).
    by rewrite Hnil in Hne.
Qed.

(** *** The probe URL *)

Lemma URL_Query_wf (u : url_URL URLRest) : Values_wf (URL_Query u).
Proof. apply parseQuery_wf. intros k. by rewrite lookup_empty. Qed.

(** C9: the query of the probe holds, for [param], the single value made
    of its first value and the payload, and for every other name what it
    held before; [Encode] writes it with the names in increasing order and
    every name and value escaped, so that it parses back to itself. *)
Theorem checkAppend_probe target param payload s u :
  url_Parse target = Some u ->
  let q := URL_Query u in
  let q' := probe_query u param payload in
  checkAppend target param payload s
  = (let '((_, body), s') :=
       doRequest (URL_String (mk_URL (Rest u) (Values_Encode q'))) s in
     (strings_Contains body payload, s'))
  /\ q' !! param = Some [Values_Get q param +:+ payload]
  /\ (forall v vs,
        q !! param = Some (v :: vs) -> q' !! param = Some [v +:+ payload])
  /\ (forall k, k <> param -> q' !! k = q !! k)
  /\ Values_Encode q' = join_amp (encode_pair <$> pairs_of q' (sorted_keys q'))
  /\ StronglySorted String.le (sorted_keys q')
  /\ NoDup (sorted_keys q')
  /\ (forall k, k ∈ sorted_keys q' <-> is_Some (q' !! k))
  /\ parseQuery ∅ (Values_Encode q') = q'.
Proof.
  intros Hu q q'. split_and!.
  - by rewrite checkAppend_unfold, Hu.
  - apply lookup_insert_eq.
  - intros v vs Hq. unfold q', probe_query, Values_Set, Values_Get.
    fold q. by rewrite Hq, lookup_insert_eq.
  - intros k Hk. by apply lookup_insert_ne.
  - unfold Values_Encode. by rewrite Encode_pairs_pairs_of.
  - apply sorted_keys_sorted.
  - apply sorted_keys_NoDup.
  - apply sorted_keys_elem.
  - apply parseQuery_Encode, Values_Set_wf, URL_Query_wf.
Qed.

End Program_facts.

(** ** The producer: trimming the lines *)

Section Trimming.

(** *** Runes as numbers *)

Lemma N_lor_shiftl a b n :
  (b < 2 ^ n)%N -> N.lor (N.shiftl a n) b = (a * 2 ^ n + b)%N.
Proof.
  intros Hb.
  assert (N.land (N.shiftl a n) b = 0%N) as Hdisj.
  { apply N.bits_inj. intros i. rewrite N.land_spec, N.bits_0.
    destruct (N.lt_ge_cases i n) as [Hi|Hi].
    - by rewrite N.shiftl_spec_low.
    - destruct (N.eq_dec b 0%N) as [->|Hb0]; [by rewrite N.bits_0, andb_false_r|].
      rewrite (N.bits_above_log2 b i), andb_false_r; [done|].
      apply N.log2_lt_pow2; [lia|].
      eapply N.lt_le_trans; [done|]. by apply N.pow_le_mono_r. }
  by rewrite <-N.lxor_lor, <-N.add_nocarry_lxor, N.shiftl_mul_pow2.
Qed.

Lemma N_land_mod a n : N.land a (N.ones n) = (a mod 2 ^ n)%N.
Proof. apply N.land_ones. Qed.

(** The rune of a two-byte encoding, as a number. *)
Lemma rune2_value s0 s1 :
  N.lor (N.shiftl (N.land s0 31) 6) (N.land s1 63)
  = ((s0 mod 32) * 64 + s1 mod 64)%N.
Proof.
  change 31%N with (N.ones 5). change 63%N with (N.ones 6).
  rewrite !N_land_mod, N_lor_shiftl; [done|]. by apply N.mod_lt.
Qed.

Lemma rune3_value s0 s1 s2 :
  N.lor (N.lor (N.shiftl (N.land s0 15) 12) (N.shiftl (N.land s1 63) 6))
    (N.land s2 63)
  = ((s0 mod 16) * 4096 + (s1 mod 64) * 64 + s2 mod 64)%N.
Proof.
  change 15%N with (N.ones 4). change 63%N with (N.ones 6).
  rewrite !N_land_mod.
  rewrite (N.shiftl_mul_pow2 (s1 mod 2 ^ 6)).
  rewrite N_lor_shiftl.
  2:{ pose proof (N.mod_lt s1 (2 ^ 6)). change (2 ^ 6)%N with 64%N in *.
      change (2 ^ 12)%N with 4096%N. lia. }
  replace ((s0 mod 2 ^ 4) * 2 ^ 12 + (s1 mod 2 ^ 6) * 2 ^ 6)%N
    with (N.shiftl ((s0 mod 2 ^ 4) * 64 + s1 mod 2 ^ 6) 6)
    by (rewrite N.shiftl_mul_pow2; change (2 ^ 12)%N with 4096%N;
        change (2 ^ 6)%N with 64%N; lia).
  rewrite N_lor_shiftl by (by apply N.mod_lt).
  change (2 ^ 4)%N with 16%N. change (2 ^ 6)%N with 64%N. lia.
Qed.

Lemma rune4_value s0 s1 s2 s3 :
  N.lor (N.lor (N.lor (N.shiftl (N.land s0 7) 18) (N.shiftl (N.land s1 63) 12))
           (N.shiftl (N.land s2 63) 6)) (N.land s3 63)
  = ((s0 mod 8) * 262144 + (s1 mod 64) * 4096 + (s2 mod 64) * 64 + s3 mod 64)%N.
Proof.
  change 7%N with (N.ones 3). change 63%N with (N.ones 6).
  rewrite !N_land_mod.
  pose proof (N.mod_lt s1 (2 ^ 6)). pose proof (N.mod_lt s2 (2 ^ 6)).
  pose proof (N.mod_lt s3 (2 ^ 6)).
  change (2 ^ 6)%N with 64%N in *. change (2 ^ 3)%N with 8%N.
  rewrite (N.shiftl_mul_pow2 (s1 mod 64)), (N.shiftl_mul_pow2 (s2 mod 64)).
  rewrite N_lor_shiftl by (change (2 ^ 18)%N with 262144%N;
                           change (2 ^ 12)%N with 4096%N; lia).
  replace ((s0 mod 8) * 2 ^ 18 + (s1 mod 64) * 2 ^ 12)%N
    with (N.shiftl ((s0 mod 8) * 64 + s1 mod 64) 12)
    by (rewrite N.shiftl_mul_pow2; change (2 ^ 18)%N with 262144%N;
        change (2 ^ 12)%N with 4096%N; lia).
  rewrite N_lor_shiftl by (change (2 ^ 12)%N with 4096%N;
                           change (2 ^ 6)%N with 64%N; lia).
  replace (((s0 mod 8) * 64 + s1 mod 64) * 2 ^ 12 + (s2 mod 64) * 2 ^ 6)%N
    with (N.shiftl (((s0 mod 8) * 64 + s1 mod 64) * 64 + s2 mod 64) 6)
    by (rewrite N.shiftl_mul_pow2; change (2 ^ 12)%N with 4096%N;
        change (2 ^ 6)%N with 64%N; lia).
  rewrite N_lor_shiftl by (change (2 ^ 6)%N with 64%N; lia).
  change (2 ^ 6)%N with 64%N. lia.
Qed.

Local Arguments N.ltb : simpl never.
Local Arguments N.leb : simpl never.
Local Arguments N.eqb : simpl never.
Local Arguments N_of_ascii : simpl never.

Lemma byte_at_cons_0 c s : byte_at (c :: s) 0 = N_of_ascii c.
Proof. done. Qed.

Lemma byte_at_cons_S c s i : byte_at (c :: s) (S i) = byte_at s i.
Proof. done. Qed.

Lemma byte_at_drop s k i : byte_at (drop k s) i = byte_at s (k + i).
Proof. unfold byte_at. by rewrite lookup_drop. Qed.

Lemma byte_at_app_r pre s i : byte_at (pre ++ s) (length pre + i) = byte_at s i.
Proof.
  unfold byte_at. rewrite lookup_app_r by lia.
  by replace (length pre + i - length pre) with i by lia.
Qed.

Lemma byte_at_take s k i : i < k -> byte_at (take k s) i = byte_at s i.
Proof. intros. unfold byte_at. by rewrite lookup_take_lt. Qed.

Lemma DecodeRuneInString_cons c0 s :
  DecodeRuneInString (c0 :: s) = DecodeRune_cases (N_of_ascii c0) s.
Proof. destruct c0 as [[] [] [] [] [] [] [] []]; reflexivity. Qed.

Ltac cases_step :=
  match goal with
  | |- context [(?a <? ?b)%N] => destruct (N.ltb_spec a b)
  | |- context [(?a <=? ?b)%N] => destruct (N.leb_spec a b)
  | |- context [(?a =? ?b)%N] => destruct (N.eqb_spec a b)
  | |- context [?a <? ?b] => destruct (Nat.ltb_spec a b)
  | |- context [?a <=? ?b] => destruct (Nat.leb_spec a b)
  | |- context [?a =? ?b] => destruct (Nat.eqb_spec a b)
  | H : context [(?a <? ?b)%N] |- _ => revert H; destruct (N.ltb_spec a b); intros H
  | H : context [(?a =? ?b)%N] |- _ => revert H; destruct (N.eqb_spec a b); intros H
  end; cbn [orb andb negb fst snd]; try lia.

Ltac cases := repeat cases_step; try done.

(** The width of a rune. *)
Lemma DecodeRuneInString_size s :
  s <> [] -> 1 <= (DecodeRuneInString s).2 <= length s.
Proof.
  destruct s as [|c0 s]; [done|]. intros _.
  rewrite DecodeRuneInString_cons. unfold DecodeRune_cases, lead_size.
  cbn [length]. cases.
Qed.

Lemma DecodeRuneInString_nil : DecodeRuneInString [] = (RuneError, 0).
Proof. done. Qed.

Lemma IsSpace_RuneError : unicode_IsSpace RuneError = false.
Proof. done. Qed.

Lemma RuneStart_first c :
  RuneStart (N_of_ascii c) = false ->
  (128 <= N_of_ascii c < 192)%N.
Proof.
  intros H.
  assert ((128 <=? N_of_ascii c)%N && (N_of_ascii c <? 192)%N = true) as Hb.
  { revert H. destruct c as [[] [] [] [] [] [] [] []]; vm_compute; congruence. }
  apply andb_true_iff in Hb as [?%N.leb_le ?%N.ltb_lt]. lia.
Qed.

Lemma RuneStart_continuation c :
  RuneStart (N_of_ascii c) = true ->
  (N_of_ascii c < 128 \/ 191 < N_of_ascii c)%N.
Proof.
  intros H.
  assert ((N_of_ascii c <? 128)%N || (191 <? N_of_ascii c)%N = true) as Hb.
  { revert H. destruct c as [[] [] [] [] [] [] [] []]; vm_compute; congruence. }
  apply orb_true_iff in Hb as [?%N.ltb_lt|?%N.ltb_lt]; lia.
Qed.

Lemma byte_at_RuneStart s i :
  RuneStart (byte_at s i) = true -> (byte_at s i < 128 \/ 191 < byte_at s i)%N.
Proof.
  unfold byte_at. destruct (s !! i); [apply RuneStart_continuation|]. lia.
Qed.

(** The first byte of a white space rune is not a continuation byte. *)
Lemma DecodeRuneInString_space_start s :
  unicode_IsSpace (DecodeRuneInString s).1 = true ->
  RuneStart (byte_at s 0) = true.
Proof.
  destruct s as [|c0 s]; [done|]. rewrite DecodeRuneInString_cons.
  destruct (RuneStart (byte_at (c0 :: s) 0)) eqn:Hstart; [done|].
  apply RuneStart_first in Hstart. unfold DecodeRune_cases. cases.
Qed.

(** A valid rune of two or more bytes starts with a byte that is not
    ASCII. *)
Lemma DecodeRuneInString_wide s :
  2 <= (DecodeRuneInString s).2 -> (128 <= byte_at s 0)%N.
Proof.
  destruct s as [|c0 s]; [cbn; lia|]. rewrite DecodeRuneInString_cons.
  unfold DecodeRune_cases. rewrite byte_at_cons_0. cases.
Qed.

(** A byte that is not followed by a continuation byte is a rune of its
    own. *)
Lemma DecodeRuneInString_narrow s :
  s <> [] ->
  length s = 1 \/ RuneStart (byte_at s 1) = true ->
  (DecodeRuneInString s).2 = 1.
Proof.
  destruct s as [|c0 s]; [done|]. intros _ Hnext.
  rewrite DecodeRuneInString_cons. unfold DecodeRune_cases.
  rewrite byte_at_cons_S in Hnext. cbn [length] in Hnext.
  assert (length s = 0 \/ (byte_at s 0 < 128 \/ 191 < byte_at s 0)%N) as Hs.
  { destruct Hnext as [?|?%byte_at_RuneStart]; [left; lia|by right]. }
  unfold lead_size, lead_lo, lead_hi. cases.
Qed.

(** A rune read from exactly the bytes [a] is read in the same way when
    more bytes follow. *)
Lemma DecodeRuneInString_app a b r :
  2 <= length a ->
  DecodeRuneInString a = (r, length a) ->
  DecodeRuneInString (a ++ b) = (r, length a).
Proof.
  destruct a as [|c0 a]; [cbn; lia|]. intros Hlen.
  rewrite <-app_comm_cons, !DecodeRuneInString_cons. unfold DecodeRune_cases.
  destruct a as [|c1 [|c2 [|c3 [|c4 a]]]];
    cbn [app length] in *; rewrite ?byte_at_cons_S, ?byte_at_cons_0;
    unfold lead_size; cases; intros [= <- ?]; cases.
Qed.

Lemma space_encodings_intro (l : bytes) ns :
  N_of_ascii <$> l = ns -> ns ∈ space_codes -> l ∈ space_encodings.
Proof.
  intros <- Hin. unfold space_encodings. apply list_elem_of_fmap.
  exists (N_of_ascii <$> l). split; [|done].
  rewrite <-list_fmap_compose. symmetry. rewrite <-(list_fmap_id l) at 2.
  apply list_fmap_ext. intros _ c _. apply ascii_N_embedding.
Qed.

Lemma unicode_IsSpace_spec r :
  unicode_IsSpace r = true ->
  (r = 9 \/ r = 10 \/ r = 11 \/ r = 12 \/ r = 13 \/ r = 32 \/ r = 133
   \/ r = 160 \/ r = 5760 \/ r = 8192 \/ r = 8193 \/ r = 8194 \/ r = 8195
   \/ r = 8196 \/ r = 8197 \/ r = 8198 \/ r = 8199 \/ r = 8200 \/ r = 8201
   \/ r = 8202 \/ r = 8232 \/ r = 8233 \/ r = 8239 \/ r = 8287
   \/ r = 12288)%N.
Proof. unfold unicode_IsSpace. cases; lia. Qed.

Ltac in_codes := apply (bool_decide_unpack _); by vm_compute.

Lemma byte_at_bound s i : (byte_at s i < 256)%N.
Proof. unfold byte_at. destruct (s !! i); [apply N_ascii_bounded|lia]. Qed.

Lemma N_mod_range x k q :
  (k * q <= x < k * q + k)%N -> (x mod k = x - k * q)%N.
Proof. intros Hx. symmetry. apply (N.mod_unique x k q); lia. Qed.

Ltac mod_range H x k q :=
  rewrite (N_mod_range x k q) in H by lia.

(** What [DecodeRuneInString] returns, by the width. *)
Lemma DecodeRune_cases_shape s0 s :
  (s0 < 256)%N ->
  let '(r, size) := DecodeRune_cases s0 s in
  let b1 := byte_at s 0 in
  let b2 := byte_at s 1 in
  (size = 1 /\ (r = RuneError \/ r = s0 /\ (s0 < 128)%N))
  \/ (size = 2 /\ 1 <= length s /\ (194 <= s0 < 224)%N /\ (128 <= b1 <= 191)%N
      /\ r = ((s0 - 192) * 64 + (b1 - 128))%N)
  \/ (size = 3 /\ 2 <= length s /\ (224 <= s0 < 240)%N /\ (128 <= b1 <= 191)%N
      /\ (s0 = 224%N -> (160 <= b1)%N) /\ (128 <= b2 <= 191)%N
      /\ r = ((s0 - 224) * 4096 + (b1 - 128) * 64 + (b2 - 128))%N)
  \/ (size = 4 /\ (65536 <= r)%N).
Proof.
  intros Hs0. unfold DecodeRune_cases.
  destruct (N.ltb_spec s0 128); [left; split; [done|by right]|].
  destruct (N.ltb_spec s0 194); [left; by split; [|left]|].
  destruct (N.ltb_spec 244 s0); [left; by split; [|left]|]. cbn [orb].
  destruct (Nat.ltb_spec (S (length s)) (lead_size s0)) as [|Hlen];
    [left; by split; [|left]|].
  assert (128 <= lead_lo s0 /\ lead_hi s0 <= 191
          /\ (s0 = 224 -> 160 <= lead_lo s0)
          /\ (s0 = 240 -> 144 <= lead_lo s0))%N as (Hlo & Hhi & Hlo3 & Hlo4).
  { unfold lead_lo, lead_hi. cases. }
  destruct (N.ltb_spec (byte_at s 0) (lead_lo s0)); [left; by split; [|left]|].
  destruct (N.ltb_spec (lead_hi s0) (byte_at s 0)); [left; by split; [|left]|].
  cbn [orb]. unfold lead_size in *.
  destruct (N.ltb_spec s0 224).
  { right; left. rewrite rune2_value.
    rewrite (N_mod_range s0 32 6), (N_mod_range (byte_at s 0) 64 2) by lia.
    cbn [Nat.leb]. split_and!; try done; lia. }
  destruct (N.ltb_spec s0 240).
  { cbn [Nat.leb].
    destruct (N.ltb_spec (byte_at s 1) 128); [left; by split; [|left]|].
    destruct (N.ltb_spec 191 (byte_at s 1)); [left; by split; [|left]|].
    right; right; left. cbn [orb]. rewrite rune3_value.
    rewrite (N_mod_range s0 16 14), (N_mod_range (byte_at s 0) 64 2),
      (N_mod_range (byte_at s 1) 64 2) by lia.
    split_and!; try done; lia. }
  cbn [Nat.leb].
  destruct (N.ltb_spec (byte_at s 1) 128); [left; by split; [|left]|].
  destruct (N.ltb_spec 191 (byte_at s 1)); [left; by split; [|left]|].
  destruct (N.ltb_spec (byte_at s 2) 128); [left; by split; [|left]|].
  destruct (N.ltb_spec 191 (byte_at s 2)); [left; by split; [|left]|].
  right; right; right. cbn [orb]. rewrite rune4_value.
  rewrite (N_mod_range s0 8 30), (N_mod_range (byte_at s 0) 64 2) by lia.
  split; [done|].
  generalize (byte_at s 1 mod 64)%N (byte_at s 2 mod 64)%N. intros m1 m2.
  destruct (N.eq_dec s0 240%N) as [Heq|Hne]; [specialize (Hlo4 Heq)|]; lia.
Qed.

Ltac try_code ns :=
  apply (space_encodings_intro _ ns);
  [rewrite !fmap_cons; repeat f_equal; lia|in_codes].

Ltac find_code :=
  first
    [ exfalso; lia
    | try_code [9%N] | try_code [10%N] | try_code [11%N] | try_code [12%N]
    | try_code [13%N] | try_code [32%N]
    | try_code [194%N; 133%N] | try_code [194%N; 160%N]
    | try_code [225%N; 154%N; 128%N]
    | try_code [226%N; 128%N; 128%N] | try_code [226%N; 128%N; 129%N]
    | try_code [226%N; 128%N; 130%N] | try_code [226%N; 128%N; 131%N]
    | try_code [226%N; 128%N; 132%N] | try_code [226%N; 128%N; 133%N]
    | try_code [226%N; 128%N; 134%N] | try_code [226%N; 128%N; 135%N]
    | try_code [226%N; 128%N; 136%N] | try_code [226%N; 128%N; 137%N]
    | try_code [226%N; 128%N; 138%N]
    | try_code [226%N; 128%N; 168%N] | try_code [226%N; 128%N; 169%N]
    | try_code [226%N; 128%N; 175%N]
    | try_code [226%N; 129%N; 159%N] | try_code [227%N; 128%N; 128%N] ].

(** A white space rune is read from one of the encodings of
    [space_encodings]. *)
Lemma DecodeRuneInString_space_inv s :
  unicode_IsSpace (DecodeRuneInString s).1 = true ->
  take (DecodeRuneInString s).2 s ∈ space_encodings.
Proof.
  destruct s as [|c0 s]; [done|]. rewrite DecodeRuneInString_cons.
  pose proof (DecodeRune_cases_shape (N_of_ascii c0) s (N_ascii_bounded c0))
    as Hshape.
  destruct (DecodeRune_cases (N_of_ascii c0) s) as [r size]. cbn [fst snd].
  intros Hsp%unicode_IsSpace_spec. cbn zeta in Hshape.
  destruct Hshape as [(-> & Hr)|[(-> & Hlen & H0 & H1 & ->)
    |[(-> & Hlen & H0 & H1 & H1' & H2 & ->)|(-> & Hbig)]]].
  - cbn [take]. unfold RuneError in Hr.
    destruct Hr as [->|[-> H0]]; [exfalso; lia|]. destruct_or!; find_code.
  - destruct s as [|c1 s]; [cbn in Hlen; lia|].
    rewrite byte_at_cons_0 in *. cbn [take]. destruct_or!; find_code.
  - destruct s as [|c1 [|c2 s]]; [cbn in Hlen; lia..|].
    rewrite ?byte_at_cons_S, ?byte_at_cons_0 in *. cbn [take].
    destruct_or!; find_code.
  - exfalso. lia.
Qed.

(** Every encoding of [space_encodings] is read as a white space rune of
    its length, whatever follows. *)
Lemma DecodeRuneInString_space w rest :
  w ∈ space_encodings ->
  (DecodeRuneInString (w ++ rest)).2 = length w
  /\ unicode_IsSpace (DecodeRuneInString (w ++ rest)).1 = true.
Proof.
  revert w. apply Forall_forall. unfold space_encodings, space_codes.
  repeat (apply Forall_cons; split; [split; vm_compute; reflexivity|]).
  apply Forall_nil_2.
Qed.

Lemma space_encodings_nonempty w : w ∈ space_encodings -> w <> [].
Proof.
  revert w. apply Forall_forall. unfold space_encodings, space_codes.
  repeat (apply Forall_cons; split; [done|]). apply Forall_nil_2.
Qed.

(** *** The last rune *)

Lemma back_to_start_le s lim n start :
  (back_to_start s lim n start <= start)%Z.
Proof.
  revert start. induction n as [|n IH]; intros start; cbn; [lia|].
  destruct (start <? lim)%Z; [lia|].
  destruct (RuneStart _); [lia|]. specialize (IH (start - 1)%Z). lia.
Qed.

Lemma last_start_lt s : s <> [] -> last_start s < length s.
Proof.
  intros Hs. unfold last_start.
  assert (0 < length s) by (destruct s; [done|cbn; lia]).
  pose proof (back_to_start_le s
    (Z.max (Z.of_nat (length s) - Z.of_nat UTFMax) 0) UTFMax
    (Z.of_nat (length s - 1) - 1)).
  destruct (_ <? 0)%Z; lia.
Qed.

Lemma DecodeLastRuneInString_unfold s :
  s <> [] ->
  DecodeLastRuneInString s =
  let r := byte_at s (length s - 1) in
  if (r <? RuneSelf)%N then (r, 1)
  else
    let '(r, size) := DecodeRuneInString (drop (last_start s) s) in
    if negb (last_start s + size =? length s) then (RuneError, 1) else (r, size).
Proof.
  intros Hs. unfold DecodeLastRuneInString. fold (last_start s).
  destruct s as [|c s]; [done|]. cbn [length Nat.eqb].
  rewrite (take_ge (drop _ _)); [done|]. rewrite length_drop. cbn [length]. lia.
Qed.

Lemma DecodeLastRuneInString_size s :
  s <> [] -> 1 <= (DecodeLastRuneInString s).2 <= length s.
Proof.
  intros Hs. rewrite DecodeLastRuneInString_unfold by done. cbn zeta.
  assert (0 < length s) by (destruct s; [done|cbn; lia]).
  destruct (_ <? RuneSelf)%N; [cbn; lia|].
  pose proof (last_start_lt s Hs).
  pose proof (DecodeRuneInString_size (drop (last_start s) s)) as Hsize.
  destruct (DecodeRuneInString _) as [r size]. cbn [snd] in Hsize.
  destruct (Nat.eqb_spec (last_start s + size) (length s)); cbn; [|lia].
  split; [|lia]. apply Hsize. intros Hnil%(f_equal length).
  rewrite length_drop in Hnil. cbn in Hnil. lia.
Qed.

(** A rune of two or more bytes at the end is the rune that starts that
    many bytes before the end. *)
Lemma DecodeLastRuneInString_wide s r size :
  DecodeLastRuneInString s = (r, size) -> 2 <= size ->
  DecodeRuneInString (drop (length s - size) s) = (r, size).
Proof.
  destruct (decide (s = [])) as [->|Hs]; [intros [= <- <-]; lia|].
  rewrite DecodeLastRuneInString_unfold by done. cbn zeta.
  destruct (_ <? RuneSelf)%N; [intros [= <- <-]; lia|].
  destruct (DecodeRuneInString _) as [r' size'] eqn:Hdec.
  destruct (Nat.eqb_spec (last_start s + size') (length s)) as [Heq|];
    cbn [negb]; [|intros [= <- <-]; lia].
  intros [= <- <-] _. by replace (length s - size') with (last_start s) by lia.
Qed.

Lemma byte_at_RuneStart_false s i :
  RuneStart (byte_at s i) = false -> (128 <= byte_at s i < 192)%N.
Proof.
  unfold byte_at. destruct (s !! i); [apply RuneStart_first|done].
Qed.

(** The first byte of a white space rune at the end is not a
    continuation byte. *)
Lemma DecodeLastRuneInString_space_start s :
  unicode_IsSpace (DecodeLastRuneInString s).1 = true ->
  RuneStart (byte_at s (length s - (DecodeLastRuneInString s).2)) = true.
Proof.
  destruct (decide (s = [])) as [->|Hs]; [done|].
  rewrite DecodeLastRuneInString_unfold by done. cbn zeta.
  destruct (N.ltb_spec (byte_at s (length s - 1)) RuneSelf) as [Hlt|_].
  { cbn. intros _. destruct (RuneStart _) eqn:Hst; [done|].
    apply byte_at_RuneStart_false in Hst. unfold RuneSelf in Hlt. lia. }
  pose proof (DecodeRuneInString_space_start (drop (last_start s) s)) as Hsp.
  destruct (DecodeRuneInString _) as [r size].
  destruct (Nat.eqb_spec (last_start s + size) (length s)) as [Heq|];
    cbn [negb fst snd] in *; [|done].
  intros ?%Hsp. rewrite byte_at_drop, Nat.add_0_r in H.
  by replace (length s - size) with (last_start s) by lia.
Qed.

Lemma byte_at_app_l pre s i : i < length pre -> byte_at (pre ++ s) i = byte_at pre i.
Proof. intros. unfold byte_at. by rewrite lookup_app_l. Qed.

Lemma back_to_start_stop s lim n start :
  (lim <= start)%Z ->
  RuneStart (byte_at s (Z.to_nat start)) = true ->
  back_to_start s lim (S n) start = start.
Proof.
  intros Hlim Hstart. cbn [back_to_start].
  destruct (Z.ltb_spec start lim); [lia|]. by rewrite Hstart.
Qed.

Lemma back_to_start_next s lim n start :
  (lim <= start)%Z ->
  RuneStart (byte_at s (Z.to_nat start)) = false ->
  back_to_start s lim (S n) start = back_to_start s lim n (start - 1).
Proof.
  intros Hlim Hstart. cbn [back_to_start].
  destruct (Z.ltb_spec start lim); [lia|]. by rewrite Hstart.
Qed.

Lemma last_start_app2 pre c0 c1 :
  RuneStart (N_of_ascii c0) = true ->
  last_start (pre ++ [c0; c1]) = length pre.
Proof.
  intros H0. unfold last_start, UTFMax. rewrite length_app. cbn [length].
  replace (Z.of_nat (length pre + 2 - 1) - 1)%Z with (Z.of_nat (length pre)) by lia.
  rewrite back_to_start_stop.
  - destruct (Z.ltb_spec (Z.of_nat (length pre)) 0); lia.
  - lia.
  - rewrite Nat2Z.id, <-(Nat.add_0_r (length pre)), byte_at_app_r. done.
Qed.

Lemma last_start_app3 pre c0 c1 c2 :
  RuneStart (N_of_ascii c0) = true ->
  RuneStart (N_of_ascii c1) = false ->
  last_start (pre ++ [c0; c1; c2]) = length pre.
Proof.
  intros H0 H1. unfold last_start, UTFMax. rewrite length_app. cbn [length].
  replace (Z.of_nat (length pre + 3 - 1) - 1)%Z
    with (Z.of_nat (length pre + 1)) by lia.
  rewrite back_to_start_next.
  2: lia.
  2:{ by rewrite Nat2Z.id, byte_at_app_r. }
  replace (Z.of_nat (length pre + 1) - 1)%Z with (Z.of_nat (length pre)) by lia.
  rewrite back_to_start_stop.
  - destruct (Z.ltb_spec (Z.of_nat (length pre)) 0); lia.
  - lia.
  - rewrite Nat2Z.id, <-(Nat.add_0_r (length pre)), byte_at_app_r. done.
Qed.

Lemma space_encodings_shape w : w ∈ space_encodings -> encoding_shape w.
Proof.
  revert w. apply Forall_forall. unfold space_encodings, space_codes.
  repeat (apply Forall_cons; split;
          [first [by apply shape1 | by apply shape2 | by apply shape3]|]).
  apply Forall_nil_2.
Qed.

(** Every encoding of [space_encodings] is read as a white space rune of
    its length from the end, whatever comes before. *)
Lemma DecodeLastRuneInString_space pre w :
  w ∈ space_encodings ->
  (DecodeLastRuneInString (pre ++ w)).2 = length w
  /\ unicode_IsSpace (DecodeLastRuneInString (pre ++ w)).1 = true.
Proof.
  intros Hw. pose proof (DecodeRuneInString_space w [] Hw) as Hdec.
  rewrite app_nil_r in Hdec.
  assert (pre ++ w <> []) as Hne.
  { apply space_encodings_nonempty in Hw. by destruct pre, w. }
  rewrite DecodeLastRuneInString_unfold by done. cbn zeta.
  rewrite length_app.
  destruct (space_encodings_shape w Hw) as [c Hc|c0 c1 Hc1 Hc0|c0 c1 c2 Hc2 Hc0 Hc1].
  - cbn [length].
    replace (length pre + 1 - 1) with (length pre + 0) by lia.
    rewrite byte_at_app_r. change (byte_at [c] 0) with (N_of_ascii c).
    rewrite Hc. cbn [fst snd]. split; [done|].
    revert Hdec. rewrite DecodeRuneInString_cons. unfold DecodeRune_cases.
    unfold RuneSelf in Hc. rewrite Hc. by intros [].
  - cbn [length].
    replace (length pre + 2 - 1) with (length pre + 1) by lia.
    rewrite byte_at_app_r. change (byte_at [c0; c1] 1) with (N_of_ascii c1).
    rewrite Hc1, last_start_app2, drop_app_length by done.
    destruct (DecodeRuneInString [c0; c1]) as [r size]. cbn in Hdec.
    destruct Hdec as [-> ?]. by rewrite Nat.eqb_refl.
  - cbn [length].
    replace (length pre + 3 - 1) with (length pre + 2) by lia.
    rewrite byte_at_app_r. change (byte_at [c0; c1; c2] 2) with (N_of_ascii c2).
    rewrite Hc2, last_start_app3, drop_app_length by done.
    destruct (DecodeRuneInString [c0; c1; c2]) as [r size]. cbn in Hdec.
    destruct Hdec as [-> ?]. by rewrite Nat.eqb_refl.
Qed.

(** *** [indexFunc] and [TrimLeftFunc] *)

Lemma indexFunc_from_skip f truth k i s :
  k <= length s ->
  indexFunc_from f truth k i s = indexFunc_from f truth 0 (i + k) (drop k s).
Proof.
  revert k i. induction s as [|c s IH]; intros k i Hk.
  { cbn in Hk. replace k with 0 by lia. by rewrite Nat.add_0_r. }
  destruct k as [|k]; [by rewrite Nat.add_0_r|].
  cbn [indexFunc_from drop]. cbn [length] in Hk. rewrite IH by lia.
  f_equal. lia.
Qed.

(** One turn of the loop [for i, r := range s]. *)
Lemma indexFunc_from_step f truth i s :
  s <> [] ->
  indexFunc_from f truth 0 i s =
  let '(r, size) := DecodeRuneInString s in
  if Bool.eqb (f r) truth then Some i
  else indexFunc_from f truth 0 (i + size) (drop size s).
Proof.
  intros Hs. pose proof (DecodeRuneInString_size s Hs) as Hsize.
  destruct s as [|c s]; [done|]. cbn [indexFunc_from].
  destruct (DecodeRuneInString (c :: s)) as [r size]. cbn [snd length] in Hsize.
  destruct (Bool.eqb (f r) truth); [done|].
  rewrite indexFunc_from_skip by lia.
  destruct size as [|size]; [lia|]. cbn [drop].
  replace (S size - 1) with size by lia. f_equal. lia.
Qed.

Lemma indexFunc_from_Some f i s j :
  indexFunc_from f false 0 i s = Some j ->
  exists k, j = i + k /\ k < length s
    /\ f (DecodeRuneInString (drop k s)).1 = false.
Proof.
  remember (length s) as n eqn:Hn. revert s i Hn.
  induction (lt_wf n) as [n _ IH]. intros s i -> Hj.
  destruct (decide (s = [])) as [->|Hs]; [done|].
  rewrite indexFunc_from_step in Hj by done.
  pose proof (DecodeRuneInString_size s Hs) as Hsize.
  destruct (DecodeRuneInString s) as [r size] eqn:Hdec. cbn [snd] in Hsize.
  destruct (f r) eqn:Hf; cbn [Bool.eqb] in Hj.
  - destruct (IH (length (drop size s)) ltac:(rewrite length_drop; lia)
                (drop size s) (i + size) eq_refl Hj) as (k & -> & Hk & Hfk).
    rewrite length_drop in Hk. rewrite drop_drop in Hfk.
    exists (size + k). split_and!; [lia|lia|done].
  - injection Hj as <-. exists 0. rewrite drop_0, Hdec.
    split_and!; [lia|lia|done].
Qed.

Lemma white_nil : white [].
Proof. by exists []. Qed.

Lemma white_app w s : w ∈ space_encodings -> white s -> white (w ++ s).
Proof. intros Hw (ws & Hws & ->). exists (w :: ws). split; [by constructor|done]. Qed.

Lemma white_ind (P : bytes -> Prop) :
  P [] ->
  (forall w s, w ∈ space_encodings -> white s -> P s -> P (w ++ s)) ->
  forall s, white s -> P s.
Proof.
  intros Hnil Happ s (ws & Hws & ->).
  induction Hws as [|w ws Hw Hws IH]; [done|].
  cbn. apply Happ; [done| |done]. by exists ws.
Qed.

Lemma white_encoding w : w ∈ space_encodings -> white w.
Proof. intros Hw. rewrite <-(app_nil_r w). apply white_app; [done|apply white_nil]. Qed.

Lemma white_append s t : white s -> white t -> white (s ++ t).
Proof.
  intros (ws & Hws & ->) (wt & Hwt & ->). exists (ws ++ wt).
  split; [by apply Forall_app|by rewrite concat_app].
Qed.

(** A white space rune of one byte. *)
Lemma IsSpace_byte_encoding c :
  unicode_IsSpace (N_of_ascii c) = true -> (N_of_ascii c < RuneSelf)%N ->
  [c] ∈ space_encodings.
Proof.
  intros Hsp%unicode_IsSpace_spec Hc. unfold RuneSelf in Hc.
  destruct_or!; find_code.
Qed.

Lemma asciiSpace_encoding c :
  asciiSpace (N_of_ascii c) = true -> [c] ∈ space_encodings.
Proof.
  unfold asciiSpace. intros Hsp.
  assert (9 <= N_of_ascii c <= 13 \/ N_of_ascii c = 32)%N as Hc.
  { revert Hsp. cases; lia. }
  assert (N_of_ascii c = 9 \/ N_of_ascii c = 10 \/ N_of_ascii c = 11
          \/ N_of_ascii c = 12 \/ N_of_ascii c = 13 \/ N_of_ascii c = 32)%N
    as Hc' by lia.
  clear Hsp Hc. destruct_or!; find_code.
Qed.

(** A white space rune at the end is one of the encodings of
    [space_encodings]. *)
Lemma DecodeLastRuneInString_space_inv s :
  unicode_IsSpace (DecodeLastRuneInString s).1 = true ->
  drop (length s - (DecodeLastRuneInString s).2) s ∈ space_encodings.
Proof.
  destruct (decide (s = [])) as [->|Hs]; [done|].
  assert (0 < length s) as Hlen by (destruct s; [done|cbn; lia]).
  rewrite DecodeLastRuneInString_unfold by done. cbn zeta.
  destruct (N.ltb_spec (byte_at s (length s - 1)) RuneSelf) as [Hlt|_].
  { cbn [fst snd]. intros Hsp.
    destruct (lookup_lt_is_Some_2 s (length s - 1)) as [c Hc]; [lia|].
    unfold byte_at in Hlt, Hsp. rewrite Hc in Hlt, Hsp.
    rewrite (drop_S _ c) by done. rewrite drop_ge by lia.
    by apply IsSpace_byte_encoding. }
  pose proof (DecodeRuneInString_space_inv (drop (last_start s) s)) as Hinv.
  destruct (DecodeRuneInString _) as [r size].
  destruct (Nat.eqb_spec (last_start s + size) (length s)) as [Heq|];
    cbn [negb fst snd] in *; [|done].
  intros Hsp. specialize (Hinv Hsp).
  rewrite take_ge in Hinv by (rewrite length_drop; lia).
  by replace (length s - size) with (last_start s) by lia.
Qed.

(** What [indexFunc] steps over is white space. *)
Lemma indexFunc_from_prefix i s :
  match indexFunc_from unicode_IsSpace false 0 i s with
  | Some j => exists k, j = i + k /\ k < length s /\ white (take k s)
  | None => white s
  end.
Proof.
  remember (length s) as n eqn:Hn. revert s i Hn.
  induction (lt_wf n) as [n _ IH]. intros s i ->.
  destruct (decide (s = [])) as [->|Hs]; [apply white_nil|].
  assert (0 < length s) as Hlen by (destruct s; [done|cbn; lia]).
  rewrite indexFunc_from_step by done.
  pose proof (DecodeRuneInString_size s Hs) as Hsize.
  pose proof (DecodeRuneInString_space_inv s) as Hinv.
  destruct (DecodeRuneInString s) as [r size]. cbn [fst snd] in *.
  destruct (unicode_IsSpace r) eqn:Hr; cbn [Bool.eqb].
  - specialize (Hinv eq_refl).
    specialize (IH (length (drop size s)) ltac:(rewrite length_drop; lia)
                  (drop size s) (i + size) eq_refl).
    destruct (indexFunc_from _ _ _ _ (drop size s)) as [j|].
    + destruct IH as (k & -> & Hk & Hw). rewrite length_drop in Hk.
      exists (size + k). split_and!; [lia|lia|].
      rewrite <-take_take_drop. by apply white_append; [apply white_encoding|].
    + rewrite <-(take_drop size s). by apply white_app.
  - exists 0. split_and!; [lia|lia|apply white_nil].
Qed.

Lemma TrimLeftFunc_before s :
  exists before,
    s = before ++ TrimLeftFunc s unicode_IsSpace /\ white before.
Proof.
  unfold TrimLeftFunc, indexFunc.
  pose proof (indexFunc_from_prefix 0 s) as Hpre.
  destruct (indexFunc_from _ _ _ _ s) as [j|].
  - destruct Hpre as (k & -> & _ & Hw). exists (take k s).
    by rewrite take_drop.
  - exists s. by rewrite app_nil_r.
Qed.

Lemma indexFunc_from_white i s :
  white s -> indexFunc_from unicode_IsSpace false 0 i s = None.
Proof.
  intros Hs. revert i. induction Hs as [|w s Hw Hs IH] using white_ind;
    intros i; [done|].
  rewrite indexFunc_from_step.
  2:{ apply space_encodings_nonempty in Hw. by destruct w. }
  destruct (DecodeRuneInString_space w s Hw) as [Hsize Hsp].
  destruct (DecodeRuneInString (w ++ s)) as [r size]. cbn [fst snd] in *.
  subst size. rewrite Hsp. cbn [Bool.eqb]. by rewrite drop_app_length.
Qed.

Lemma TrimLeftFunc_first s f :
  TrimLeftFunc s f = [] \/ f (DecodeRuneInString (TrimLeftFunc s f)).1 = false.
Proof.
  unfold TrimLeftFunc, indexFunc.
  destruct (indexFunc_from f false 0 0 s) as [j|] eqn:Hj; [|by left].
  apply indexFunc_from_Some in Hj as (k & -> & _ & Hf). by right.
Qed.

Lemma TrimLeftFunc_suffix s f : TrimLeftFunc s f `suffix_of` s.
Proof.
  unfold TrimLeftFunc. destruct (indexFunc s f false).
  - apply suffix_drop.
  - apply suffix_nil.
Qed.

Lemma TrimLeftFunc_white s : white s -> TrimLeftFunc s unicode_IsSpace = [].
Proof. intros Hs. unfold TrimLeftFunc, indexFunc. by rewrite indexFunc_from_white. Qed.

(** *** [lastIndexFunc] and [TrimRightFunc] *)

Lemma lastIndexFunc_from_skip s f truth k i :
  k <= i ->
  lastIndexFunc_from s f truth k i = lastIndexFunc_from s f truth 0 (i - k).
Proof.
  revert k. induction i as [|i IH]; intros k Hk.
  { by replace k with 0 by lia. }
  destruct k as [|k]; [done|]. cbn [lastIndexFunc_from]. rewrite IH by lia.
  f_equal.
Qed.

(** One turn of the loop [for i := len(s); i > 0;]. *)
Lemma lastIndexFunc_from_step s f truth i :
  0 < i <= length s ->
  lastIndexFunc_from s f truth 0 i =
  let '(r, size) := DecodeLastRuneInString (take i s) in
  if Bool.eqb (f r) truth then Some (i - size)
  else lastIndexFunc_from s f truth 0 (i - size).
Proof.
  intros Hi. destruct i as [|i]; [lia|]. cbn [lastIndexFunc_from].
  pose proof (DecodeLastRuneInString_size (take (S i) s)) as Hsize.
  rewrite length_take_le in Hsize by lia.
  destruct (DecodeLastRuneInString (take (S i) s)) as [r size].
  cbn [snd] in Hsize.
  assert (1 <= size <= S i) as Hsz.
  { apply Hsize. intros Hnil%(f_equal length).
    rewrite length_take_le in Hnil by lia. cbn in Hnil. lia. }
  destruct (Bool.eqb (f r) truth); [done|].
  rewrite lastIndexFunc_from_skip by lia. f_equal. lia.
Qed.

Lemma drop_take_drop (s : bytes) k i :
  k <= i <= length s -> drop k s = drop k (take i s) ++ drop i s.
Proof.
  intros Hk. rewrite <-(take_drop i s) at 1.
  rewrite drop_app_le; [done|]. rewrite length_take_le; lia.
Qed.

(** The loop stops behind the last rune that is not white space; what it
    steps over is white space. *)
Lemma lastIndexFunc_from_spec s i :
  i <= length s -> tail_ok s i -> white (drop i s) ->
  match lastIndexFunc_from s unicode_IsSpace false 0 i with
  | Some j =>
      exists i',
        0 < i' <= length s /\ tail_ok s i'
        /\ unicode_IsSpace (DecodeLastRuneInString (take i' s)).1 = false
        /\ j = i' - (DecodeLastRuneInString (take i' s)).2
        /\ white (drop i' s)
  | None => white s
  end.
Proof.
  induction (lt_wf i) as [i _ IH]. intros Hi Hok Hw.
  destruct (decide (i = 0)) as [->|Hpos]; [done|].
  rewrite lastIndexFunc_from_step by lia.
  pose proof (DecodeLastRuneInString_size (take i s)) as Hsize.
  pose proof (DecodeLastRuneInString_space_start (take i s)) as Hstart.
  pose proof (DecodeLastRuneInString_space_inv (take i s)) as Hinv.
  rewrite length_take_le in Hsize, Hstart, Hinv by lia.
  destruct (DecodeLastRuneInString (take i s)) as [r size] eqn:Hdec.
  cbn [fst snd] in *.
  assert (1 <= size <= i) as Hsz.
  { apply Hsize. intros Hnil%(f_equal length).
    rewrite length_take_le in Hnil by lia. cbn in Hnil. lia. }
  destruct (unicode_IsSpace r) eqn:Hr; cbn [Bool.eqb].
  - apply (IH (i - size)); [lia|lia| |].
    + right. rewrite <-(byte_at_take s i) by lia. by apply Hstart.
    + rewrite (drop_take_drop s (i - size) i) by lia.
      apply white_app; [by apply Hinv|done].
  - exists i. rewrite Hdec. split_and!; [lia|lia|done..].
Qed.

Lemma TrimRightFunc_prefix s f : TrimRightFunc s f `prefix_of` s.
Proof.
  unfold TrimRightFunc. destruct (lastIndexFunc s f false); [|apply prefix_nil].
  destruct (_ <=? _)%N; apply prefix_take.
Qed.

(** [TrimRightFunc] cuts behind the last rune that is not white space. *)
Lemma TrimRightFunc_take s :
  (TrimRightFunc s unicode_IsSpace = [] /\ white s)
  \/ exists i, 0 < i <= length s
       /\ TrimRightFunc s unicode_IsSpace = take i s
       /\ unicode_IsSpace (DecodeLastRuneInString (take i s)).1 = false
       /\ white (drop i s).
Proof.
  unfold TrimRightFunc, lastIndexFunc.
  pose proof (lastIndexFunc_from_spec s (length s)) as Hspec.
  rewrite drop_all in Hspec.
  specialize (Hspec ltac:(lia) ltac:(by left) white_nil).
  destruct (lastIndexFunc_from _ _ _ _ _) as [j|]; [|by left].
  destruct Hspec as (i & Hi & Hok & Hsp & -> & Hwhite).
  right. exists i. split; [done|]. split; [|done].
  pose proof (DecodeLastRuneInString_size (take i s)) as Hsize.
  pose proof (DecodeLastRuneInString_wide (take i s)) as Hwide.
  rewrite length_take_le in Hsize, Hwide by lia.
  destruct (DecodeLastRuneInString (take i s)) as [r size] eqn:Hdec.
  cbn [fst snd] in *.
  assert (1 <= size <= i) as Hsz.
  { apply Hsize. intros Hnil%(f_equal length).
    rewrite length_take_le in Hnil by lia. cbn in Hnil. lia. }
  specialize (Hwide r size eq_refl).
  assert (drop (i - size) (take i s) = take size (drop (i - size) s)) as Hslice.
  { rewrite take_drop_commute. do 2 f_equal. lia. }
  destruct (N.leb_spec RuneSelf (byte_at s (i - size))) as [Hbyte|Hbyte].
  - f_equal. destruct (decide (2 <= size)) as [Hwd|Hone].
    + specialize (Hwide Hwd). rewrite Hslice in Hwide.
      assert (length (take size (drop (i - size) s)) = size) as Hlen.
      { rewrite length_take_le; [done|]. rewrite length_drop. lia. }
      pose proof (DecodeRuneInString_app (take size (drop (i - size) s))
                    (drop size (drop (i - size) s)) r) as Happ.
      rewrite Hlen, take_drop in Happ. rewrite Happ by done. cbn. lia.
    + assert (size = 1) as -> by lia.
      rewrite DecodeRuneInString_narrow; [lia| |].
      * intros Hnil%(f_equal length). rewrite length_drop in Hnil. cbn in Hnil. lia.
      * rewrite length_drop, byte_at_drop.
        replace (i - 1 + 1) with i by lia. destruct Hok as [->|?]; [left; lia|by right].
  - f_equal. destruct (decide (2 <= size)) as [Hwd|Hone]; [|lia].
    specialize (Hwide Hwd). apply (f_equal snd) in Hwide. cbn [snd] in Hwide.
    assert (2 <= (DecodeRuneInString (drop (i - size) (take i s))).2) as Hw by lia.
    apply DecodeRuneInString_wide in Hw.
    rewrite byte_at_drop, Nat.add_0_r, byte_at_take in Hw by lia.
    unfold RuneSelf in Hbyte. lia.
Qed.

(** *** [TrimSpace] *)

Lemma first_not_space t w :
  t = [] \/ unicode_IsSpace (DecodeRuneInString t).1 = false ->
  w ∈ space_encodings -> ~ w `prefix_of` t.
Proof.
  intros Ht Hw [k ->]. pose proof (space_encodings_nonempty w Hw).
  destruct (DecodeRuneInString_space w k Hw) as [_ Hsp].
  destruct Ht as [Ht|Ht]; [by destruct w|congruence].
Qed.

Lemma last_not_space t w :
  t = [] \/ unicode_IsSpace (DecodeLastRuneInString t).1 = false ->
  w ∈ space_encodings -> ~ w `suffix_of` t.
Proof.
  intros Ht Hw [k ->]. pose proof (space_encodings_nonempty w Hw).
  destruct (DecodeLastRuneInString_space k w Hw) as [_ Hsp].
  destruct Ht as [Ht|Ht]; [by destruct k, w|congruence].
Qed.

Lemma TrimRightFunc_last s w :
  w ∈ space_encodings -> ~ w `suffix_of` TrimRightFunc s unicode_IsSpace.
Proof.
  apply last_not_space.
  destruct (TrimRightFunc_take s) as [[-> _]|(i & _ & -> & ? & _)];
    [by left|by right].
Qed.

Lemma TrimRightFunc_after s :
  exists after,
    s = TrimRightFunc s unicode_IsSpace ++ after /\ white after.
Proof.
  destruct (TrimRightFunc_take s) as [[-> Hw]|(i & _ & -> & _ & Hw)].
  - by exists s.
  - exists (drop i s). by rewrite take_drop.
Qed.

Lemma TrimFunc_trimmed s : trimmed (TrimFunc s unicode_IsSpace).
Proof.
  intros w Hw. split; [|by apply TrimRightFunc_last].
  intros Hpre. eapply (first_not_space (TrimLeftFunc s unicode_IsSpace)); [|done|].
  - apply TrimLeftFunc_first.
  - etrans; [done|]. apply TrimRightFunc_prefix.
Qed.

Lemma TrimFunc_infix s :
  exists before after,
    s = before ++ TrimFunc s unicode_IsSpace ++ after
    /\ white before /\ white after.
Proof.
  destruct (TrimLeftFunc_before s) as (before & Hs & Hb).
  destruct (TrimRightFunc_after (TrimLeftFunc s unicode_IsSpace))
    as (after & Ht & Ha).
  exists before, after. unfold TrimFunc. by rewrite <-Ht.
Qed.

Lemma TrimFunc_white s : white s -> TrimFunc s unicode_IsSpace = [].
Proof. intros Hs. unfold TrimFunc. by rewrite TrimLeftFunc_white. Qed.

(** Every encoding starts and ends with an ASCII space or with a byte
    that is not ASCII. *)
Lemma space_encodings_ends w :
  w ∈ space_encodings ->
  match head w, last w with
  | Some c, Some c' =>
      (RuneSelf <=? N_of_ascii c)%N || asciiSpace (N_of_ascii c) = true
      /\ (RuneSelf <=? N_of_ascii c')%N || asciiSpace (N_of_ascii c') = true
  | _, _ => False
  end.
Proof.
  revert w. apply Forall_forall. unfold space_encodings, space_codes.
  repeat (apply Forall_cons; split; [done|]). apply Forall_nil_2.
Qed.

Lemma TrimSpace_stop_spec rev_s :
  (exists after, reverse rev_s = TrimSpace_stop rev_s ++ after /\ white after)
  /\ forall w, w ∈ space_encodings -> ~ w `suffix_of` TrimSpace_stop rev_s.
Proof.
  induction rev_s as [|c rest [(after & IHpre & IHw) IHsuf]];
    cbn [TrimSpace_stop].
  { split; [exists []; split; [done|apply white_nil]|].
    intros w Hw. apply last_not_space; [by left|done]. }
  destruct (N.leb_spec RuneSelf (N_of_ascii c)) as [Hc|Hc].
  { split; [apply TrimRightFunc_after|]. intros w. apply TrimRightFunc_last. }
  destruct (asciiSpace (N_of_ascii c)) eqn:Hsp.
  { split; [|done]. exists (after ++ [c]).
    rewrite reverse_cons, IHpre, <-app_assoc. split; [done|].
    apply white_append; [done|]. by apply white_encoding, asciiSpace_encoding. }
  split; [exists []; split; [by rewrite app_nil_r|apply white_nil]|].
  intros w Hw [k Hk]. rewrite reverse_cons in Hk.
  pose proof (space_encodings_ends w Hw) as Hends.
  apply (f_equal last) in Hk. rewrite last_snoc in Hk.
  destruct (head w); [|done]. destruct (last w) as [c'|] eqn:Hlast; [|done].
  rewrite last_app, Hlast in Hk. injection Hk as <-.
  destruct Hends as [_ Hend]. rewrite Hsp, orb_false_r in Hend.
  apply N.leb_le in Hend. lia.
Qed.

Lemma TrimSpace_start_spec s :
  (exists before after,
      s = before ++ TrimSpace_start s ++ after
      /\ white before /\ white after)
  /\ trimmed (TrimSpace_start s).
Proof.
  induction s as [|c rest [(before & after & IHin & IHb & IHa) IHtr]];
    cbn [TrimSpace_start].
  { split; [exists [], []; split_and!; [done|apply white_nil..]|].
    intros w Hw.
    split; [apply first_not_space|apply last_not_space]; first [by left|done]. }
  destruct (N.leb_spec RuneSelf (N_of_ascii c)) as [Hc|Hc].
  { split; [apply TrimFunc_infix|apply TrimFunc_trimmed]. }
  destruct (asciiSpace (N_of_ascii c)) eqn:Hsp.
  { split; [|done]. exists (c :: before), after.
    split_and!; [by rewrite IHin at 1| |done].
    apply (white_app [c]); [by apply asciiSpace_encoding|done]. }
  destruct (TrimSpace_stop_spec (reverse (c :: rest)))
    as [(after' & Hpre & Hw') Hsuf].
  rewrite reverse_involutive in Hpre.
  split; [exists [], after'; split_and!; [done|apply white_nil|done]|].
  intros w Hw. split; [|by apply Hsuf].
  intros [k Hk]. pose proof (space_encodings_ends w Hw) as Hends.
  rewrite Hk, <-app_assoc in Hpre.
  destruct w as [|c0 w]; [done|]. injection Hpre as <- _. cbn [head] in Hends.
  destruct (last (c :: w)); [|done]. destruct Hends as [Hend _].
  rewrite Hsp, orb_false_r in Hend. apply N.leb_le in Hend. lia.
Qed.

(** The first byte of an encoding: an ASCII space for one byte, not ASCII
    for more bytes. *)
Lemma space_encodings_first w :
  w ∈ space_encodings ->
  match w with
  | [c] => (RuneSelf <=? N_of_ascii c)%N = false
           /\ asciiSpace (N_of_ascii c) = true
  | c :: _ => (RuneSelf <=? N_of_ascii c)%N = true
  | [] => False
  end.
Proof.
  revert w. apply Forall_forall. unfold space_encodings, space_codes.
  repeat (apply Forall_cons; split; [done|]). apply Forall_nil_2.
Qed.

Lemma TrimSpace_start_white s : white s -> TrimSpace_start s = [].
Proof.
  induction 1 as [|w s Hw Hs IH] using white_ind; [done|].
  pose proof (space_encodings_first w Hw) as Hfirst.
  pose proof (white_app w s Hw Hs) as Hws.
  destruct w as [|c [|c1 w]]; [done|..]; cbn [app TrimSpace_start] in *.
  - destruct Hfirst as [-> ->]. done.
  - rewrite Hfirst. by apply TrimFunc_white.
Qed.

(** *** The producer *)

Lemma producer_filter lines :
  producer lines
  = filter (fun line => line <> EmptyString) (strings_TrimSpace <$> lines).
Proof.
  induction lines as [|text lines IH]; [done|].
  cbn [producer]. rewrite fmap_cons.
  destruct (String.eqb_spec (strings_TrimSpace text) EmptyString) as [Heq|Hne];
    cbn [negb].
  - by rewrite filter_cons_False by (by intros ?).
  - by rewrite filter_cons_True, IH by done.
Qed.

Lemma strings_TrimSpace_bytes text :
  list_ascii_of_string (strings_TrimSpace text)
  = TrimSpace_start (list_ascii_of_string text).
Proof. apply list_ascii_of_string_of_list_ascii. Qed.

(** C10: what the producer sends are the trimmed lines that are not
    empty, in their order, so every URL that reaches a worker is not
    empty and has no white space at either end; trimming takes white
    space, and nothing else, from the two ends of a line, and what is
    left neither starts nor ends with white space; and a line of nothing
    but white space trims to the empty string, so it is skipped like a
    blank line. *)
Theorem producer_trims :
  (forall lines,
      producer lines
      = filter (fun line => line <> EmptyString) (strings_TrimSpace <$> lines))
  /\ (forall lines line,
        line ∈ producer lines ->
        line <> EmptyString
        /\ trimmed (list_ascii_of_string line)
        /\ exists text, text ∈ lines /\ line = strings_TrimSpace text)
  /\ (forall text,
        let line := list_ascii_of_string (strings_TrimSpace text) in
        trimmed line
        /\ exists before after,
             list_ascii_of_string text = before ++ line ++ after
             /\ white before /\ white after)
  /\ (forall text,
        white (list_ascii_of_string text) ->
        strings_TrimSpace text = EmptyString
        /\ forall lines lines',
             producer (lines ++ text :: lines') = producer (lines ++ lines')).
Proof.
  split_and!.
  - apply producer_filter.
  - intros lines line Hin. rewrite producer_filter in Hin.
    apply list_elem_of_filter in Hin as [Hne Hin].
    apply list_elem_of_fmap in Hin as (text & -> & Htext).
    split_and!; [done| |by exists text].
    rewrite strings_TrimSpace_bytes. apply TrimSpace_start_spec.
  - intros text line. unfold line. rewrite strings_TrimSpace_bytes.
    destruct (TrimSpace_start_spec (list_ascii_of_string text)) as [Hin Htr].
    by split.
  - intros text Hw.
    assert (strings_TrimSpace text = EmptyString) as Hempty.
    { unfold strings_TrimSpace. by rewrite TrimSpace_start_white. }
    split; [done|]. intros lines lines'.
    rewrite !producer_filter, !fmap_app, !filter_app, fmap_cons, Hempty.
    by rewrite filter_cons_False by (by intros ?).
Qed.

End Trimming.

(** ** The claims on concrete runs *)

(** C1 fails on the code: [http://x/a?p=] has the parameter [p] with an
    empty value, and [findReflectedParams] reports it for a page that does
    not mention it. *)
Theorem findReflectedParams_empty_value_reported :
  URL_Query (mk_URL tt "p=") !! "p" = Some [EmptyString]
  /\ (@findReflectedParams (demo_platform (page "<p>nothing here</p>"))
        "http://x/a?p=" (demo_state _ false)).1 = ["p"].
Proof. split; vm_compute; reflexivity. Qed.

(** C7 fails on the code: the answer to [http://x/a?p=&q=1] arrives and
    reading its body fails, so the request has failed; [doRequest] goes
    on with the response and an empty body, and [findReflectedParams]
    returns [p] and not the empty list. *)
Theorem findReflectedParams_read_failure_reported :
  let P := demo_platform broken_body in
  let target := "http://x/a?p=&q=1" in
  let s := demo_state broken_body false in
  @request_fails P target s
  /\ (@doRequest P target s).1
     = (Some (mk_Response "text/html" BodyError), EmptyString)
  /\ (@findReflectedParams P target s).1 = ["p"].
Proof.
  intros P target s. split_and!.
  - right. exists (mk_Response "text/html" BodyError). split; reflexivity.
  - vm_compute. reflexivity.
  - vm_compute. reflexivity.
Qed.

(** The three ways in which the body can hold the value. *)
Example reflected_raw_escaped_plus :
  let run body :=
    (@findReflectedParams (demo_platform (page body))
       "http://x/a?q=a+b%2Fc" (demo_state _ false)).1 in
  run "<p>a b/c</p>" = ["q"]
  /\ run "<p>a+b%2Fc</p>" = ["q"]
  /\ run "<p>a+b/c</p>" = ["q"]
  /\ run "<p>a%20b/c</p>" = [].
Proof. split_and!; vm_compute; reflexivity. Qed.

Lemma findReflectedParams_reflected_witness :
  "q" ∈ (@findReflectedParams (demo_platform (page "<p>hello</p>"))
           "http://x/a?q=hello" (demo_state _ false)).1
  <-> substring "hello" "<p>hello</p>"
      \/ substring (url_QueryEscape "hello") "<p>hello</p>"
      \/ substring (strings_ReplaceAll "hello" " " "+") "<p>hello</p>".
Proof.
  eapply (@findReflectedParams_reflected (demo_platform (page "<p>hello</p>"))
            "http://x/a?q=hello" (demo_state _ false) _ _ _
            (mk_URL ("http://x/a", false, EmptyString) "q=hello") "q" "hello" []);
    vm_compute; reflexivity.
Defined.

Lemma findReflectedParams_same_names_witness :
  let P := demo_platform (page "<p>1 2</p>") in
  (@findReflectedParams P "http://x/a?a=1&b=2" (demo_state _ false)).1
  ≡ₚ (@findReflectedParams P "http://x/a?a=1&b=2" (demo_state _ true)).1
  /\ NoDup (@findReflectedParams P "http://x/a?a=1&b=2" (demo_state _ false)).1.
Proof.
  intros P.
  apply (@findReflectedParams_same_names P "http://x/a?a=1&b=2"
           (demo_state _ false) (demo_state _ true)).
  reflexivity.
Defined.

(** C4 fails as stated: the same URL and the same response, and the two
    runs return the names in different orders, because the [range] over
    the map of the query visited them in different orders. *)
Lemma findReflectedParams_order_differs :
  let P := demo_platform (page "<p>1 2</p>") in
  let run1 := (@findReflectedParams P "http://x/a?a=1&b=2" (demo_state _ false)).1 in
  let run2 := (@findReflectedParams P "http://x/a?a=1&b=2" (demo_state _ true)).1 in
  (@client_Do P "http://x/a?a=1&b=2" false).1
  = (@client_Do P "http://x/a?a=1&b=2" true).1
  /\ run1 = reverse run2 /\ run1 <> run2.
Proof. intros P run1 run2. split_and!; vm_compute; [reflexivity..|discriminate]. Qed.

(** Scenario 1: the page writes the value of [q] as it is. *)
Example scenario1 :
  let P := demo_platform (echo_q (fun v => v)) in
  let rs := (@worker P ["http://x/a?q=hello"] (demo_state _ false)).1 in
  rs = [mk_Result "http://x/a?q=hello" "q" chars]
  /\ entry (group rs) "http://x/a?q=hello" "q" = Some chars
  /\ foundAny rs = true.
Proof. intros P rs. split_and!; vm_compute; reflexivity. Qed.

(** Scenario 2: the page never holds the value. *)
Example scenario2 :
  let P := demo_platform (page "<p>nothing here</p>") in
  let rs := (@worker P ["http://x/a?q=hello"] (demo_state _ false)).1 in
  rs = [] /\ group rs = ∅ /\ foundAny rs = false.
Proof. intros P rs. split_and!; vm_compute; reflexivity. Qed.

(** Scenario 3: the value is reflected, and no probed character comes
    through. *)
Example scenario3 :
  let P := demo_platform (echo_q alnum_only) in
  (@findReflectedParams P "http://x/a?q=hi" (demo_state _ false)).1 = ["q"]
  /\ (@worker P ["http://x/a?q=hi"] (demo_state _ false)).1 = [].
Proof. intros P. split; vm_compute; reflexivity. Qed.

(** A URL that cannot be reached issues its one request and nothing
    else. *)
Example unreachable_run :
  let P := demo_platform unreachable in
  @worker P ["http://x/a?q=hi"] (demo_state _ false)
  = ([], @mk_State P false ["http://x/a?q=hi"]).
Proof. intros P. vm_compute. reflexivity. Qed.

Lemma testSpecialChars_unfiltered_witness :
  let P := demo_platform (echo_q (fun v => v)) in
  "<" ∈ (@testSpecialChars P "http://x/a?q=hello" "q" (demo_state _ false)).1
  /\ (@testSpecialChars P "http://x/a?q=hello" "q" (demo_state _ false)).1
     `sublist_of` chars.
Proof.
  intros P.
  destruct (@testSpecialChars_unfiltered P "http://x/a?q=hello" "q"
              (demo_state _ false)) as [Hiff Hsub].
  split; [|exact Hsub]. apply Hiff.
  exists 2, (mk_URL ("http://x/a", false, EmptyString) "q=hello").
  split_and!; [reflexivity..|].
  apply strings_Contains_spec. vm_compute. reflexivity.
Defined.

Lemma failed_requests_give_nothing_witness :
  (@findReflectedParams (demo_platform unreachable) "http://x/a?q=hello"
     (demo_state _ false)).1 = []
  /\ "<" ∉ (@testSpecialChars (demo_platform broken_body) "http://x/a?q=hello"
              "q" (demo_state _ false)).1.
Proof.
  split.
  - apply (@failed_requests_give_nothing (demo_platform unreachable)
             "http://x/a?q=hello" "q" (demo_state _ false)).
    right; left. reflexivity.
  - apply (proj1 (proj2 (proj2
             (@failed_requests_give_nothing (demo_platform broken_body)
                "http://x/a?q=hello" "q" (demo_state _ false))))
             2 "<" (mk_URL ("http://x/a", false, EmptyString) "q=hello"));
      [reflexivity..|].
    right. exists (mk_Response "text/html" BodyError). split; reflexivity.
Defined.

Lemma report_entries_are_probed_witness :
  let P := demo_platform (echo_q (fun v => v)) in
  let rs := (@worker P ["http://x/a\?q\=hello"] (demo_state _ false)).1 in
  chars <> []
  /\ exists rawURL s i,
       "http://x/a?q=hello" = normalizeURL rawURL
       /\ (@findReflectedParams P "http://x/a?q=hello" s).1 !! i = Some "q"
       /\ chars
          = (@testSpecialChars P "http://x/a?q=hello" "q"
               (state_before_param "http://x/a?q=hello"
                  (@findReflectedParams P "http://x/a?q=hello" s).1 i
                  (@findReflectedParams P "http://x/a?q=hello" s).2)).1.
Proof.
  intros P rs.
  apply (proj1 (@report_entries_are_probed P) rs "http://x/a?q=hello" "q" chars).
  - intros r Hr. by exists ["http://x/a\?q\=hello"], (demo_state _ false).
  - vm_compute. reflexivity.
Defined.

Lemma checkAppend_probe_witness :
  let P := demo_platform (echo_q (fun v => v)) in
  let u := mk_URL ("http://x/a", false, EmptyString) "b=1&a=2&a=3" in
  let q' := @probe_query P u "a" "aprefix<asuffix" in
  q' !! "a" = Some ["2aprefix<asuffix"]
  /\ q' !! "b" = Some ["1"]
  /\ Values_Encode q' = "a=2aprefix%3Casuffix&b=1"
  /\ parseQuery ∅ (Values_Encode q') = q'.
Proof.
  intros P u q'.
  destruct (@checkAppend_probe P "http://x/a?b=1&a=2&a=3" "a" "aprefix<asuffix"
              (demo_state _ false) u eq_refl)
    as (_ & _ & Hfirst & Hother & _ & _ & _ & _ & Hparse).
  split_and!.
  - apply (Hfirst "2" ["3"]). vm_compute. reflexivity.
  - unfold q'. rewrite Hother by done. vm_compute. reflexivity.
  - vm_compute. reflexivity.
  - exact Hparse.
Defined.

Lemma producer_trims_witness :
  let text := String "009" (String "194" (String "160" " ")) in
  strings_TrimSpace text = EmptyString
  /\ forall lines lines',
       producer (lines ++ text :: lines') = producer (lines ++ lines').
Proof.
  intros text. apply (proj2 (proj2 (proj2 producer_trims)) text).
  exists [[ascii_of_N 9]; [ascii_of_N 194; ascii_of_N 160]; [ascii_of_N 32]].
  split; [|reflexivity].
  repeat (apply Forall_cons; split;
          [apply (bool_decide_unpack _); by vm_compute|]).
  apply Forall_nil_2.
Defined.

Example producer_example :
  producer
    [ "  http://x/a?q=1 "; "   "; EmptyString;
      String "194" (String "160" "http://y/") ]
  = [ "http://x/a?q=1"; "http://y/" ].
Proof. vm_compute. reflexivity. Qed.

(** * Part IV: further properties *)

Local Arguments testSpecialChars : simpl never.
Local Arguments findReflectedParams : simpl never.

(** ** URL normalization *)

(** Induction along the scan of [normalizeURL]: it copies a byte, or
    resolves an escape of two bytes, or one of three. *)
Lemma normalizeURL_scan_ind (P : string -> string -> Prop) :
  P EmptyString EmptyString ->
  (forall c r, P r (normalizeURL r) -> P (String c r) (String c (normalizeURL r))) ->
  (forall d r,
      special d = true -> P r (normalizeURL r) ->
      P (String "\" (String d r)) (String d (normalizeURL r))) ->
  (forall r,
      P r (normalizeURL r) ->
      P (String "\" (String "\" (String "?" r))) (String "?" (normalizeURL r))) ->
  forall x, P x (normalizeURL x).
Proof.
  intros Hnil Hcopy Htwo Hthree x.
  induction x as [x IH] using string_length_ind.
  rewrite normalizeURL_unfold.
  destruct x as [|c r]; cbn [normalizeURL_step]; [done|].
  destruct (Ascii.eqb_spec c "\") as [->|Hc]; [|apply Hcopy, IH; cbn; lia].
  destruct r as [|d r'].
  { specialize (Hcopy "\"%char EmptyString).
    rewrite (normalizeURL_unfold EmptyString) in Hcopy. by apply Hcopy. }
  destruct (special d) eqn:Hd; [apply Htwo; [done|apply IH; cbn; lia]|].
  destruct (Ascii.eqb_spec d "\") as [->|Hd']; [|apply Hcopy, IH; cbn; lia].
  destruct r' as [|e r'']; [apply Hcopy, IH; cbn; lia|].
  destruct (Ascii.eqb_spec e "?") as [->|He]; [|apply Hcopy, IH; cbn; lia].
  apply Hthree, IH. cbn. lia.
Qed.

Lemma drop_backslashes_normalizeURL x :
  drop_backslashes (normalizeURL x) = drop_backslashes x.
Proof.
  apply (normalizeURL_scan_ind
           (fun x y => drop_backslashes y = drop_backslashes x)).
  - done.
  - intros c r IH. cbn [drop_backslashes]. by rewrite IH.
  - intros d r Hd IH. pose proof (special_ne d Hd) as Hne.
    cbn [drop_backslashes]. change (Ascii.eqb "\" "\") with true. cbn iota.
    by rewrite IH.
  - intros r IH. cbn [drop_backslashes]. change (Ascii.eqb "\" "\") with true.
    cbn iota. by rewrite IH.
Qed.

Lemma normalizeURL_sublist x :
  list_ascii_of_string (normalizeURL x) `sublist_of` list_ascii_of_string x.
Proof.
  apply (normalizeURL_scan_ind
           (fun x y => list_ascii_of_string y `sublist_of` list_ascii_of_string x)).
  - done.
  - intros c r IH. cbn. by apply sublist_skip.
  - intros d r _ IH. cbn. by apply sublist_cons, sublist_skip.
  - intros r IH. cbn. by apply sublist_cons, sublist_cons, sublist_skip.
Qed.

(** X1: [normalizeURL] takes backslashes away and changes nothing else. *)
Theorem normalizeURL_only_drops_backslashes x :
  drop_backslashes (normalizeURL x) = drop_backslashes x
  /\ list_ascii_of_string (normalizeURL x) `sublist_of` list_ascii_of_string x.
Proof. split; [apply drop_backslashes_normalizeURL|apply normalizeURL_sublist]. Qed.

(** X2: the URLs that [normalizeURL] returns as they are, are those
    without an escape; every other URL gets shorter. *)
Theorem normalizeURL_identity_iff y :
  (normalizeURL y = y <-> has_escape y = false)
  /\ String.length (normalizeURL y) <= String.length y
  /\ (has_escape y = true -> String.length (normalizeURL y) < String.length y).
Proof.
  destruct (normalizeURL_length y) as [Hle Hlt]. split_and!; [|done..].
  split; [|apply normalizeURL_fixed].
  intros Heq. destruct (has_escape y); [|done].
  specialize (Hlt eq_refl). rewrite Heq in Hlt. lia.
Qed.

(** X3: [normalizeURL] undoes the escaping of a URL that has no backslash
    of its own. *)
Theorem normalizeURL_escape_specials x :
  without "\" x = true -> normalizeURL (escape_specials x) = x.
Proof.
  induction x as [|c x IH]; [done|]. unfold without. cbn [string_forall].
  intros [Hc Hx]%andb_prop. fold (without "\" x) in Hx.
  apply negb_true_iff in Hc.
  cbn [escape_specials]. rewrite normalizeURL_unfold.
  destruct (special c) eqn:Hsp; cbn [normalizeURL_step].
  - change (Ascii.eqb "\" "\") with true. cbn iota. rewrite Hsp.
    by rewrite IH.
  - rewrite Hc. by rewrite IH.
Qed.

Lemma normalizeURL_escape_specials_witness :
  normalizeURL (escape_specials "http://x/a?q=1&r=2") = "http://x/a?q=1&r=2".
Proof. apply normalizeURL_escape_specials. reflexivity. Defined.

Lemma ends_with_backslash_cons c d r :
  ends_with_backslash (String c (String d r)) = ends_with_backslash (String d r).
Proof. done. Qed.

(** X4: [normalizeURL] works on the two parts of a URL one after the
    other, if the first part does not end with a backslash. *)
Theorem normalizeURL_app a b :
  ends_with_backslash a = false ->
  normalizeURL (a +:+ b) = normalizeURL a +:+ normalizeURL b.
Proof.
  induction a as [a IH] using string_length_ind. intros Ha.
  destruct a as [|c r]; [done|].
  rewrite (normalizeURL_unfold (String c r +:+ b)),
    (normalizeURL_unfold (String c r)).
  cbn [String.append normalizeURL_step].
  destruct (Ascii.eqb_spec c "\") as [->|Hc].
  2:{ cbn [String.append]. f_equal. apply IH; [cbn; lia|].
      destruct r; [done|]. by rewrite <-Ha. }
  destruct r as [|d r']; [done|]. cbn [String.append].
  rewrite ends_with_backslash_cons in Ha.
  destruct (special d) eqn:Hd.
  { cbn [String.append]. f_equal. apply IH; [cbn; lia|].
    destruct r'; [done|]. by rewrite <-Ha. }
  destruct (Ascii.eqb_spec d "\") as [->|Hd'].
  2:{ cbn [String.append]. f_equal. by apply (IH (String d r')); [cbn; lia|]. }
  destruct r' as [|e r'']; [done|]. cbn [String.append].
  rewrite ends_with_backslash_cons in Ha.
  destruct (Ascii.eqb_spec e "?") as [->|He].
  { cbn [String.append]. f_equal. apply IH; [cbn; lia|].
    destruct r''; [done|]. by rewrite <-Ha. }
  cbn [String.append]. f_equal.
  by apply (IH (String "\" (String e r''))); [cbn; lia|].
Qed.

Lemma normalizeURL_app_witness :
  normalizeURL ("http://x/a\?q" +:+ "\=1")
  = normalizeURL "http://x/a\?q" +:+ normalizeURL "\=1".
Proof. apply normalizeURL_app. reflexivity. Defined.

(** ** The detector *)

Lemma url_QueryEscape_empty val :
  url_QueryEscape val = EmptyString <-> val = EmptyString.
Proof.
  split; [|by intros ->]. destruct val as [|c val]; [done|].
  cbn. destruct (shouldEscape c); [destruct (Ascii.eqb c " ")|]; done.
Qed.

Lemma strings_ReplaceAll_empty val :
  strings_ReplaceAll val " " "+" = EmptyString <-> val = EmptyString.
Proof.
  split; [|by intros ->]. destruct val as [|c val]; [done|].
  unfold strings_ReplaceAll, Replacer.Replace. cbn.
  destruct (Ascii.eqb " " c); done.
Qed.

Lemma reflects_empty_body val :
  reflects EmptyString val = true <-> val = EmptyString.
Proof.
  split; [|intros ->; done].
  unfold reflects. intros Hr.
  destruct (decide (val = EmptyString)) as [|Hne]; [done|].
  rewrite !strings_Contains_of_empty in Hr; [done|..].
  - by rewrite strings_ReplaceAll_empty.
  - by rewrite url_QueryEscape_empty.
  - done.
Qed.

Section Detector_more.
Context `{Platform}.


(** X6: when the body of an HTML answer comes back empty (it is empty, or
    reading it failed), the parameters reported are those whose first
    value is empty. *)
Theorem findReflectedParams_empty_body target s r s1 u k :
  doRequest target s = ((Some r, EmptyString), s1) ->
  strings_Contains (ContentType r) "html" = true ->
  url_Parse target = Some u ->
  k ∈ (findReflectedParams target s).1
  <-> exists vals, URL_Query u !! k = Some (EmptyString :: vals).
Proof.
  intros Hdo Hhtml Hu.
  rewrite (findReflectedParams_elem target s r EmptyString s1 u k Hdo Hhtml Hu).
  split.
  - intros (val & vals & Hq & ->%reflects_empty_body). by exists vals.
  - intros (vals & Hq). exists EmptyString, vals. by rewrite reflects_empty_body.
Qed.

End Detector_more.

Lemma findReflectedParams_empty_body_witness :
  let P := demo_platform broken_body in
  let target := "http://x/a?p=&q=1" in
  ("p" ∈ (@findReflectedParams P target (demo_state _ false)).1
   <-> exists vals,
         URL_Query (mk_URL ("http://x/a", false, EmptyString) "p=&q=1") !! "p"
         = Some (EmptyString :: vals))
  /\ ("q" ∈ (@findReflectedParams P target (demo_state _ false)).1
      <-> exists vals,
            URL_Query (mk_URL ("http://x/a", false, EmptyString) "p=&q=1") !! "q"
            = Some (EmptyString :: vals)).
Proof.
  intros P target.
  split;
    apply (@findReflectedParams_empty_body P target (demo_state _ false)
             (mk_Response "text/html" BodyError)
             (@mk_State P false [target]));
    reflexivity.
Defined.

(** ** The probes *)

Lemma encode_pair_bytes kv : string_forall query_byte (encode_pair kv) = true.
Proof.
  unfold encode_pair. rewrite !string_forall_app.
  assert (forall s, string_forall query_byte (url_QueryEscape s) = true) as Hesc.
  { intros s. apply (string_forall_impl escaped_byte); [|apply url_QueryEscape_bytes].
    intros c Hc. unfold query_byte. by rewrite Hc. }
  by rewrite !Hesc.
Qed.

Lemma join_amp_bytes P ps :
  P "&"%char = true ->
  Forall (fun p => string_forall P p = true) ps ->
  string_forall P (join_amp ps) = true.
Proof.
  intros Hamp Hps. destruct Hps as [|p ps Hp Hps]; [done|].
  cbn [join_amp]. revert p Hp.
  induction Hps as [|q ps Hq Hps IH]; intros p Hp; [done|].
  cbn [fold_left]. apply IH.
  rewrite !string_forall_app, Hp, Hq. cbn. by rewrite Hamp.
Qed.

Lemma Values_Encode_bytes q :
  string_forall query_byte (Values_Encode q) = true.
Proof.
  unfold Values_Encode. rewrite Encode_pairs_pairs_of.
  apply join_amp_bytes; [done|].
  apply Forall_fmap, Forall_forall. intros kv _. apply encode_pair_bytes.
Qed.

Lemma string_forall_Contains P s x :
  string_forall P s = true -> P x = false ->
  strings_Contains s (String x EmptyString) = false.
Proof.
  intros Hs Hx. apply strings_Contains_byte. unfold without.
  apply (string_forall_impl P); [|done].
  intros c Hc. destruct (Ascii.eqb_spec c x) as [->|]; [congruence|done].
Qed.

Lemma substring_trans a b c : substring a b -> substring b c -> substring a c.
Proof.
  intros (x & y & ->) (x' & y' & ->).
  exists (x' +:+ x), (y +:+ y'). by rewrite !append_assoc.
Qed.

Lemma chars_escaped :
  Forall (fun c => exists x, c = String x EmptyString /\ query_byte x = false)
    chars.
Proof.
  unfold chars.
  repeat (apply Forall_cons; split; [eexists; split; [reflexivity|reflexivity]|]).
  apply Forall_nil_2.
Qed.

Section Probes_more.
Context `{Platform}.

(** X7: a probe goes out percent-encoded: the query that [checkAppend]
    writes into the URL holds unreserved bytes, [%], [+], [=] and [&]
    only, so neither the probe character nor the payload stands in it as
    it is. *)
Theorem probe_query_encoded (u : url_URL URLRest) param :
  Forall (fun c =>
            let raw := Values_Encode (probe_query u param (payload_of c)) in
            string_forall query_byte raw = true
            /\ strings_Contains raw c = false
            /\ strings_Contains raw (payload_of c) = false)
    chars.
Proof.
  eapply Forall_impl; [apply chars_escaped|].
  intros c (x & -> & Hx). cbn zeta.
  pose proof (Values_Encode_bytes
                (probe_query u param (payload_of (String x EmptyString)))) as Hb.
  pose proof (string_forall_Contains _ _ x Hb Hx) as Hc.
  split_and!; [done..|].
  destruct (strings_Contains _ (payload_of _)) eqn:Hp; [|done].
  apply strings_Contains_spec in Hp.
  assert (substring (String x EmptyString) (payload_of (String x EmptyString)))
    as Hsub by (by exists prefix, suffix).
  pose proof (substring_trans _ _ _ Hsub Hp) as Hs.
  apply strings_Contains_spec in Hs. congruence.
Qed.

End Probes_more.

(** ** The workers and the report *)

Section Workers_more.
Context `{Platform}.

Lemma testSpecialChars_requests target param s :
  requests (testSpecialChars target param s).2
  = requests s
    ++ match url_Parse target with
       | Some u => c ← chars; issued (probe_target u param (payload_of c))
       | None => []
       end.
Proof. apply testSpecialChars_loop_requests. Qed.

Lemma worker_params_requests cleanURL ps s :
  requests (worker_params cleanURL ps s).2
  = requests s
    ++ match url_Parse cleanURL with
       | Some u =>
           p ← ps; c ← chars; issued (probe_target u p (payload_of c))
       | None => []
       end.
Proof.
  revert s. induction ps as [|p ps IH]; intros s.
  { cbn. destruct (url_Parse cleanURL); by rewrite app_nil_r. }
  rewrite worker_params_cons.
  pose proof (testSpecialChars_requests cleanURL p s) as Hreq.
  destruct (testSpecialChars cleanURL p s) as [cs s1]. cbn [fst snd] in *.
  rewrite IH, Hreq. destruct (url_Parse cleanURL); [|by rewrite !app_nil_r].
  by rewrite bind_cons, <-!app_assoc.
Qed.

Lemma worker_url_unfold rawURL s :
  worker_url rawURL s
  = worker_params (normalizeURL rawURL)
      (findReflectedParams (normalizeURL rawURL) s).1
      (findReflectedParams (normalizeURL rawURL) s).2.
Proof.
  unfold worker_url, bind.
  by destruct (findReflectedParams (normalizeURL rawURL) s).
Qed.

Lemma issued_length target : length (issued target) <= 1.
Proof. unfold issued. destruct (url_Parse target); cbn; lia. Qed.

Lemma probes_length (u : url_URL URLRest) ps :
  length (p ← ps; c ← chars; issued (probe_target u p (payload_of c)))
  <= 13 * length ps.
Proof.
  induction ps as [|p ps IH]; [cbn; lia|].
  rewrite bind_cons, length_app. cbn [length].
  assert (forall cs : list string,
            length (c ← cs; issued (probe_target u p (payload_of c)))
            <= length cs) as Hcs.
  { induction cs as [|c cs IHcs]; [cbn; lia|].
    rewrite bind_cons, length_app. cbn [length].
    pose proof (issued_length (probe_target u p (payload_of c))). lia. }
  specialize (Hcs chars). change (length chars) with 13 in Hcs. lia.
Qed.

(** X8: what a worker asks of the server for one line: the normalized URL
    once, then the thirteen probes of each reflected parameter, in the
    order of the parameters and of the characters; nothing at all for a
    URL that does not parse. *)
Theorem worker_url_requests rawURL s :
  let cleanURL := normalizeURL rawURL in
  let params := (findReflectedParams cleanURL s).1 in
  requests (worker_url rawURL s).2
  = requests s
    ++ match url_Parse cleanURL with
       | Some u =>
           cleanURL
           :: (p ← params; c ← chars; issued (probe_target u p (payload_of c)))
       | None => []
       end
  /\ length (requests (worker_url rawURL s).2)
     <= length (requests s) + 1 + 13 * length params.
Proof.
  intros cleanURL params.
  assert (requests (worker_url rawURL s).2
          = requests s
            ++ match url_Parse cleanURL with
               | Some u =>
                   cleanURL
                   :: (p ← params; c ← chars;
                       issued (probe_target u p (payload_of c)))
               | None => []
               end) as Heq.
  { rewrite worker_url_unfold, worker_params_requests,
      findReflectedParams_requests. fold cleanURL params.
    unfold issued at 1. destruct (url_Parse cleanURL); [|by rewrite !app_nil_r].
    by rewrite <-app_assoc. }
  split; [done|]. rewrite Heq, length_app.
  destruct (url_Parse cleanURL) as [u|]; cbn [length]; [|lia].
  pose proof (probes_length u params). lia.
Qed.

Lemma worker_params_Params cleanURL ps s :
  (Param <$> (worker_params cleanURL ps s).1) `sublist_of` ps.
Proof.
  revert s. induction ps as [|p ps IH]; intros s; [done|].
  rewrite worker_params_cons.
  destruct (testSpecialChars cleanURL p s) as [cs s1]. cbn [fst].
  destruct (decide (0 < length cs)); cbn [app fmap list_fmap].
  - apply sublist_skip, IH.
  - apply sublist_cons, IH.
Qed.

(** X9: the results of one line carry the normalized URL, pairwise
    different parameters, all of them reflected, and a list of
    characters that is not empty and is part of the probe set, in its
    order. *)
Theorem worker_url_results rawURL s :
  let cleanURL := normalizeURL rawURL in
  let rs := (worker_url rawURL s).1 in
  NoDup (Param <$> rs)
  /\ (Param <$> rs) `sublist_of` (findReflectedParams cleanURL s).1
  /\ forall r, r ∈ rs ->
       URL r = cleanURL /\ Chars r <> [] /\ Chars r `sublist_of` chars.
Proof.
  intros cleanURL rs. unfold rs. rewrite worker_url_unfold. fold cleanURL.
  pose proof (worker_params_Params cleanURL (findReflectedParams cleanURL s).1
                (findReflectedParams cleanURL s).2) as Hsub.
  split_and!; [|done|].
  - eapply sublist_NoDup; [apply findReflectedParams_NoDup|exact Hsub].
  - intros r (i & p & _ & Hne & ->)%worker_params_elem.
    cbn [URL Chars] in *. split_and!; [done..|].
    apply testSpecialChars_loop_sublist.
Qed.

Lemma worker_cons rawURL rest s :
  worker (rawURL :: rest) s
  = let '(rs, s1) := worker_url rawURL s in
    let '(rs', s2) := worker rest s1 in
    (rs ++ rs', s2).
Proof.
  cbn [worker]. unfold bind, ret. destruct (worker_url rawURL s) as [rs s1].
  by destruct (worker rest s1).
Qed.

(** X10: a worker takes the lines one after the other: what it does with
    a line depends on the lines before it through the state of the
    world only, and its results come in the order of the lines. *)
Theorem worker_app input input' s :
  worker (input ++ input') s
  = let '(rs, s1) := worker input s in
    let '(rs', s2) := worker input' s1 in
    (rs ++ rs', s2).
Proof.
  revert s. induction input as [|rawURL input IH]; intros s.
  { cbn. by destruct (worker input' s). }
  cbn [app]. rewrite !worker_cons.
  destruct (worker_url rawURL s) as [rs s1]. rewrite IH.
  destruct (worker input s1) as [rs1 s2].
  destruct (worker input' s2) as [rs2 s3]. by rewrite app_assoc.
Qed.

End Workers_more.

(** X11: the message that nothing was found is printed exactly when the
    report is empty. *)
Theorem foundAny_group rs : foundAny rs = false <-> group rs = ∅.
Proof.
  destruct rs as [|r rs _] using rev_ind; [done|].
  split.
  - by destruct rs.
  - rewrite group_snoc. intros Hg.
    apply (f_equal (.!! URL r)) in Hg.
    rewrite group_step_lookup, lookup_empty in Hg.
    by destruct (decide (URL r = URL r)).
Qed.

(** X12: the report holds, for a URL and a parameter, the characters of
    the last result that arrived for them. *)
Theorem group_last_wins rs u p cs :
  entry (group rs) u p = Some cs
  <-> exists rs1 r rs2,
        rs = rs1 ++ r :: rs2
        /\ URL r = u /\ Param r = p /\ Chars r = cs
        /\ Forall (fun r' => ~ (URL r' = u /\ Param r' = p)) rs2.
Proof.
  induction rs as [|r rs IH] using rev_ind.
  { split; [done|]. intros (rs1 & r & rs2 & Heq & _). by destruct rs1. }
  rewrite group_snoc, entry_group_step.
  destruct (decide (u = URL r /\ p = Param r)) as [[-> ->]|Hne].
  - split.
    + intros [= <-]. exists rs, r, []. repeat split. apply Forall_nil_2.
    + intros (rs1 & r0 & rs2 & Heq & Hu & Hp & <- & Hlast).
      destruct rs2 as [|r2 rs2 _] using rev_ind.
      * apply app_inj_tail in Heq as [_ ->]. done.
      * rewrite app_comm_cons, app_assoc in Heq.
        apply app_inj_tail in Heq as [_ ->].
        apply Forall_app in Hlast as [_ Hlast].
        rewrite Forall_singleton in Hlast. by destruct Hlast.
  - rewrite IH. split.
    + intros (rs1 & r0 & rs2 & -> & Hu & Hp & Hc & Hlast).
      exists rs1, r0, (rs2 ++ [r]). rewrite <-app_assoc. split_and!; try done.
      apply Forall_app. split; [done|]. apply Forall_singleton.
      intros [<- <-]. by apply Hne.
    + intros (rs1 & r0 & rs2 & Heq & Hu & Hp & Hc & Hlast).
      destruct rs2 as [|r2 rs2 _] using rev_ind.
      * apply app_inj_tail in Heq as [_ ->]. subst. by destruct Hne.
      * rewrite app_comm_cons, app_assoc in Heq.
        apply app_inj_tail in Heq as [-> ->].
        apply Forall_app in Hlast as [Hlast _].
        by exists rs1, r0, rs2.
Qed.

(** X13: no finding is lost altogether: the report has an entry for a URL
    and a parameter exactly when some result carries them. *)
Theorem group_entry_iff rs u p :
  is_Some (entry (group rs) u p)
  <-> exists r, r ∈ rs /\ URL r = u /\ Param r = p.
Proof.
  split.
  - intros [cs (r & Hr & Hu & Hp & _)%entry_group_Some]. by exists r.
  - intros (r & Hr & Hu & Hp).
    induction rs as [|r' rs IH] using rev_ind; [by apply elem_of_nil in Hr|].
    rewrite group_snoc, entry_group_step.
    destruct (decide (u = URL r' /\ p = Param r')); [done|].
    apply IH. apply elem_of_app in Hr as [Hr|Hr%list_elem_of_singleton]; [done|].
    subst. by destruct n.
Qed.

(** ** The producer *)

Lemma white_first s :
  white s -> s = [] \/ exists w, w ∈ space_encodings /\ w `prefix_of` s.
Proof.
  induction 1 as [|w s Hw Hs _] using white_ind; [by left|].
  right. exists w. split; [done|]. by apply prefix_app_r.
Qed.

Lemma white_last s :
  white s -> s = [] \/ exists w, w ∈ space_encodings /\ w `suffix_of` s.
Proof.
  induction 1 as [|w s Hw Hs IH] using white_ind; [by left|].
  right. destruct IH as [->|(w' & Hw' & Hsuf)].
  - exists w. by rewrite app_nil_r.
  - exists w'. split; [done|]. by apply suffix_app_r.
Qed.

Lemma trimmed_fixed s : trimmed s -> TrimSpace_start s = s.
Proof.
  intros Hs.
  destruct (TrimSpace_start_spec s) as [(before & after & Heq & Hb & Ha) _].
  destruct (white_first before Hb) as [->|(w & Hw & Hpre)].
  2:{ destruct (Hs w Hw) as [Hno _]. exfalso. apply Hno.
      etrans; [done|]. rewrite Heq. by apply prefix_app_r. }
  destruct (white_last after Ha) as [->|(w & Hw & Hsuf)].
  2:{ destruct (Hs w Hw) as [_ Hno]. exfalso. apply Hno.
      etrans; [done|]. rewrite Heq. do 2 apply suffix_app_r. done. }
  by rewrite app_nil_r in Heq.
Qed.

Lemma strings_TrimSpace_trimmed text :
  trimmed (list_ascii_of_string (strings_TrimSpace text)).
Proof. rewrite strings_TrimSpace_bytes. apply TrimSpace_start_spec. Qed.

Lemma strings_TrimSpace_fixed text :
  trimmed (list_ascii_of_string text) -> strings_TrimSpace text = text.
Proof.
  intros Ht. unfold strings_TrimSpace. rewrite trimmed_fixed by done.
  apply string_of_list_ascii_of_string.
Qed.

(** X14: [strings.TrimSpace] leaves a line as it is exactly when the line
    neither starts nor ends with white space; trimming twice is
    trimming once. *)
Theorem strings_TrimSpace_fixed_iff text :
  (strings_TrimSpace text = text <-> trimmed (list_ascii_of_string text))
  /\ strings_TrimSpace (strings_TrimSpace text) = strings_TrimSpace text.
Proof.
  split; [split|].
  - intros Heq. rewrite <-Heq. apply strings_TrimSpace_trimmed.
  - apply strings_TrimSpace_fixed.
  - apply strings_TrimSpace_fixed, strings_TrimSpace_trimmed.
Qed.

(** X15: the producer changes nothing in what it has produced, and it
    handles a piece of the input without regard to the lines before or
    after it. *)
Theorem producer_idempotent lines lines' :
  producer (producer lines) = producer lines
  /\ producer (lines ++ lines') = producer lines ++ producer lines'.
Proof.
  split.
  - induction lines as [|text lines IH]; [done|]. cbn [producer].
    destruct (String.eqb_spec (strings_TrimSpace text) EmptyString) as [Heq|Hne];
      cbn [negb]; [done|].
    cbn [producer]. rewrite (strings_TrimSpace_fixed (strings_TrimSpace text))
      by apply strings_TrimSpace_trimmed.
    destruct (String.eqb_spec (strings_TrimSpace text) EmptyString); [done|].
    cbn [negb]. by rewrite IH.
  - by rewrite !producer_filter, fmap_app, filter_app.
Qed.

(** ** The headers and the input *)

Lemma strings_Cut_without sep s :
  without sep s = true -> strings_Cut s sep = (s, EmptyString, false).
Proof.
  unfold without. induction s as [|c s IH]; [done|]. cbn [string_forall].
  intros [Hc Hs]%andb_prop. apply negb_true_iff in Hc.
  cbn [strings_Cut]. by rewrite Hc, IH.
Qed.

Lemma strings_Cut_found sep s :
  without sep s = false ->
  exists before after,
    s = before +:+ String sep after /\ without sep before = true.
Proof.
  unfold without. induction s as [|c s IH]; [done|]. cbn [string_forall].
  destruct (Ascii.eqb_spec c sep) as [->|Hc]; cbn [negb andb].
  - intros _. by exists EmptyString, s.
  - intros (before & after & -> & Hb)%IH. exists (String c before), after.
    split; [done|]. cbn [string_forall].
    destruct (Ascii.eqb_spec c sep); [done|]. done.
Qed.

Lemma strings_SplitN_2 s sep :
  strings_SplitN s sep 2
  = let '(before, after, found) := strings_Cut s sep in
    if found then [before; after] else [s].
Proof.
  unfold strings_SplitN. destruct s as [|c s]; [done|].
  replace (Nat.min 2 (String.length (String c s) + 1) - 1) with 1
    by (cbn [String.length]; lia).
  cbn [SplitN_loop]. by destruct (strings_Cut (String c s) sep) as [[b a] []].
Qed.

Lemma header_set_name_value name value :
  without ":" name = true ->
  header_set (name +:+ String ":" value)
  = Some (strings_TrimSpace name, strings_TrimSpace value).
Proof.
  intros Hname. unfold header_set.
  by rewrite strings_SplitN_2, strings_Cut_app.
Qed.

(** X16: a header flag without a colon sets nothing, without any notice;
    every other one is cut at its first colon, and the name and the
    value are set with the white space around them taken off. *)
Theorem header_set_spec h :
  (header_set h = None <-> without ":" h = true)
  /\ (forall name value,
        h = name +:+ String ":" value -> without ":" name = true ->
        header_set h = Some (strings_TrimSpace name, strings_TrimSpace value))
  /\ (forall k v,
        header_set h = Some (k, v) ->
        trimmed (list_ascii_of_string k) /\ trimmed (list_ascii_of_string v)).
Proof.
  split_and!.
  - split.
    + intros Hnone. destruct (without ":" h) eqn:Hw; [done|].
      apply strings_Cut_found in Hw as (before & after & -> & Hb).
      by rewrite header_set_name_value in Hnone.
    + intros Hw. unfold header_set.
      by rewrite strings_SplitN_2, strings_Cut_without.
  - intros name value -> Hname. by apply header_set_name_value.
  - intros k v. unfold header_set. rewrite strings_SplitN_2.
    destruct (strings_Cut h ":") as [[before after] []]; [|done].
    intros [= <- <-]. rewrite !strings_TrimSpace_bytes.
    split; apply TrimSpace_start_spec.
Qed.

Lemma header_set_spec_witness :
  header_set "Cookie : a=b:c " = Some ("Cookie", "a=b:c").
Proof.
  apply (proj1 (proj2 (header_set_spec "Cookie : a=b:c ")) "Cookie " " a=b:c ");
    reflexivity.
Defined.

Lemma headerFlags_Set_fold flags acc :
  fold_left headerFlags_Set flags acc = acc ++ flags.
Proof.
  revert acc. induction flags as [|v flags IH]; intros acc; cbn [fold_left].
  - by rewrite app_nil_r.
  - unfold headerFlags_Set at 2. by rewrite IH, <-app_assoc.
Qed.

(** X17: the headers of a request are the User-Agent of the tool, set
    first, and after it one header for every [-H] flag that has a colon,
    in the order of the flags: its name is what stands before the first
    colon, its value what stands behind it, both trimmed. *)
Theorem request_header_sets_flags flags :
  let headers := fold_left headerFlags_Set flags [] in
  request_header_sets headers
  = ("User-Agent", "refxss/1.0") :: omap header_set flags
  /\ forall k v,
       (k, v) ∈ omap header_set flags
       <-> exists name value,
             name +:+ String ":" value ∈ flags
             /\ without ":" name = true
             /\ k = strings_TrimSpace name /\ v = strings_TrimSpace value.
Proof.
  intros headers. unfold headers. rewrite headerFlags_Set_fold. cbn [app].
  split; [done|]. intros k v. rewrite list_elem_of_omap. split.
  - intros (h & Hh & Hset).
    destruct (without ":" h) eqn:Hw.
    { unfold header_set in Hset.
      by rewrite strings_SplitN_2, strings_Cut_without in Hset. }
    apply strings_Cut_found in Hw as (name & value & -> & Hname).
    rewrite header_set_name_value in Hset by done. injection Hset as <- <-.
    by exists name, value.
  - intros (name & value & Hin & Hname & -> & ->).
    exists (name +:+ String ":" value). split; [done|].
    by apply header_set_name_value.
Qed.

Section Input_more.
Context `{Platform}.

(** X18: the producer sends nothing exactly when every line is blank or
    white space only; a worker then gets no URL, asks nothing of the
    server and finds nothing. *)
Theorem blank_input lines :
  (producer lines = []
   <-> Forall (fun text => white (list_ascii_of_string text)) lines)
  /\ (Forall (fun text => white (list_ascii_of_string text)) lines ->
      forall s, worker (producer lines) s = ([], s)
                /\ foundAny (worker (producer lines) s).1 = false).
Proof.
  assert (producer lines = []
          <-> Forall (fun text => white (list_ascii_of_string text)) lines)
    as Hiff.
  { rewrite producer_filter. induction lines as [|text lines IH].
    { split; [by constructor|done]. }
    rewrite fmap_cons, Forall_cons, <-IH. split.
    - intros Hnil.
      destruct (decide (strings_TrimSpace text = EmptyString)) as [Heq|Hne].
      + rewrite filter_cons_False in Hnil by (by intros ?). split; [|done].
        destruct (TrimSpace_start_spec (list_ascii_of_string text))
          as [(before & after & Htext & Hb & Ha) _].
        rewrite <-strings_TrimSpace_bytes, Heq in Htext. cbn in Htext.
        rewrite Htext. by apply white_append.
      + by rewrite filter_cons_True in Hnil.
    - intros [Hw Hnil]. rewrite filter_cons_False; [done|].
      intros Hne. apply Hne. unfold strings_TrimSpace.
      by rewrite TrimSpace_start_white. }
  split; [done|]. intros Hall s. apply Hiff in Hall. by rewrite Hall.
Qed.

End Input_more.

Lemma blank_input_witness :
  let P := demo_platform unreachable in
  let lines := [ "   "; EmptyString; String "009" (String "194" (String "160" " ")) ] in
  let s := demo_state unreachable false in
  @worker P (producer lines) s = ([], s)
  /\ foundAny (@worker P (producer lines) s).1 = false.
Proof.
  intros P lines s. apply (proj2 (@blank_input P lines)).
  repeat (apply Forall_cons; split; [|]); [..|apply Forall_nil_2].
  - exists [[ascii_of_N 32]; [ascii_of_N 32]; [ascii_of_N 32]].
    split; [|reflexivity].
    repeat (apply Forall_cons; split;
            [apply (bool_decide_unpack _); by vm_compute|]).
    apply Forall_nil_2.
  - exists []. by split.
  - exists [[ascii_of_N 9]; [ascii_of_N 194; ascii_of_N 160]; [ascii_of_N 32]].
    split; [|reflexivity].
    repeat (apply Forall_cons; split;
            [apply (bool_decide_unpack _); by vm_compute|]).
    apply Forall_nil_2.
Defined.

(** ** The output *)

Lemma header_text_inj u u' : header_text u = header_text u' -> u = u'.
Proof.
  unfold header_text. cbn. intros [= Heq]. revert u' Heq.
  induction u as [|c u IH]; intros [|c' u']; cbn; intros Heq; try done.
  - by destruct u'.
  - by destruct u.
  - injection Heq as -> Heq. f_equal. by apply IH.
Qed.

Lemma print_params_headers ps : filter (fun l => is_header_text l = true) (print_params ps) = [].
Proof.
  induction ps as [|[p cs] ps IH]; [done|]. cbn [print_params].
  rewrite !filter_cons_False; [done|by cbn..].
Qed.

Lemma print_params_elem ps l :
  l ∈ print_params ps ->
  (exists p, l = param_text p) \/ (exists cs, l = unfiltered_text cs).
Proof.
  induction ps as [|[p cs] ps IH]; cbn [print_params]; [by intros ?%elem_of_nil|].
  rewrite !elem_of_cons. intros [->|[->|?]]; [left|right|]; eauto.
Qed.

Lemma not_found_text_other :
  (forall u, not_found_text <> header_text u)
  /\ (forall p, not_found_text <> param_text p)
  /\ (forall cs, not_found_text <> unfiltered_text cs).
Proof.
  split_and!; intros x Heq;
    unfold not_found_text, header_text, param_text, unfiltered_text in Heq;
    cbn in Heq; discriminate.
Qed.

Lemma group_lookup_is_Some rs u :
  is_Some (group rs !! u) <-> exists r, r ∈ rs /\ URL r = u.
Proof.
  rewrite <-not_eq_None_Some, group_lookup_None. split.
  - intros Hn. destruct (decide (Exists (fun r => URL r = u) rs)) as [Hex|Hno].
    + apply Exists_exists in Hex as (r & Hr & Hu). by exists r.
    + exfalso. apply Hn. intros r Hr Hu. apply Hno, Exists_exists. by exists r.
  - intros (r & Hr & Hu) Hall. by apply (Hall r).
Qed.

Lemma print_params_no_header ps :
  Forall (fun l => is_header_text l = false) (print_params ps).
Proof.
  induction ps as [|[p cs] ps IH]; [by constructor|]. cbn [print_params].
  by repeat (apply Forall_cons; split; [done|]).
Qed.

Lemma print_params_entry ps p cs :
  (p, cs) ∈ ps ->
  exists before after,
    print_params ps = before ++ param_text p :: unfiltered_text cs :: after.
Proof.
  induction ps as [|[p' cs'] ps IH]; [by intros ?%elem_of_nil|].
  intros [[= -> ->]|Hin]%elem_of_cons; cbn [print_params].
  - by exists [], (print_params ps).
  - destruct (IH Hin) as (before & after & ->).
    by exists (param_text p' :: unfiltered_text cs' :: before), after.
Qed.

Section Output_facts.
Context `{ReportRange}.

Lemma print_urls_cons url params rest s :
  print_urls ((url, params) :: rest) s
  = let '(ps, w) := range_Values params (world s) in
    let s1 := mk_State w (requests s) in
    ((header_text url :: print_params ps ++ (print_urls rest s1).1),
     (print_urls rest s1).2).
Proof.
  cbn [print_urls]. unfold bind, do_range, ret.
  destruct (range_Values params (world s)) as [ps w].
  by destruct (print_urls rest _).
Qed.

Lemma print_urls_headers entries s :
  filter (fun l => is_header_text l = true) (print_urls entries s).1
  = header_text <$> entries.*1.
Proof.
  revert s. induction entries as [|[url params] entries IH]; intros s; [done|].
  rewrite print_urls_cons. destruct (range_Values params (world s)) as [ps w].
  cbn [fst]. rewrite filter_cons_True by done.
  by rewrite filter_app, print_params_headers, IH.
Qed.

Lemma print_urls_not_found entries s :
  not_found_text ∉ (print_urls entries s).1.
Proof.
  destruct not_found_text_other as (Hheader & Hparam & Hunfiltered).
  revert s. induction entries as [|[url params] entries IH]; intros s Hin.
  { by apply elem_of_nil in Hin. }
  rewrite print_urls_cons in Hin.
  destruct (range_Values params (world s)) as [ps w]. cbn [fst] in Hin.
  apply elem_of_cons in Hin as [Heq|Hin]; [by apply Hheader in Heq|].
  apply elem_of_app in Hin as [Hin|Hin]; [|by eapply IH].
  apply print_params_elem in Hin as [[p Hp]|[cs Hcs]].
  - by apply Hparam in Hp.
  - by apply Hunfiltered in Hcs.
Qed.

Lemma print_urls_requests entries s :
  requests (print_urls entries s).2 = requests s.
Proof.
  revert s. induction entries as [|[url params] entries IH]; intros s; [done|].
  rewrite print_urls_cons. destruct (range_Values params (world s)) as [ps w].
  cbn [snd]. by rewrite IH.
Qed.

Lemma print_report_unfold g found s :
  print_report g found s
  = let s1 := mk_State (range_Report g (world s)).2 (requests s) in
    let entries := (range_Report g (world s)).1 in
    ((print_urls entries s1).1 ++ (if negb found then [not_found_text] else []),
     (print_urls entries s1).2).
Proof.
  unfold print_report, bind, do_range_Report, ret.
  destruct (range_Report g (world s)) as [entries w]. cbn [fst snd].
  by destruct (print_urls entries _).
Qed.

(** X19: among the texts that the calls of [fmt.Printf] write, the
    header texts are, up to their order, one for each URL of the
    results, however many results a URL has; the text that nothing was
    found is written exactly when there is no result; and printing asks
    nothing of the server.  The texts are counted, not the lines of the
    output. *)
Theorem print_report_headers rs s :
  let out := (print_report (group rs) (foundAny rs) s).1 in
  filter (fun l => is_header_text l = true) out
    ≡ₚ header_text <$> elements (dom (group rs))
  /\ (forall u, header_text u ∈ out <-> exists r, r ∈ rs /\ URL r = u)
  /\ (not_found_text ∈ out <-> rs = [])
  /\ requests (print_report (group rs) (foundAny rs) s).2 = requests s.
Proof.
  intros out. unfold out. rewrite print_report_unfold. cbn zeta. cbn [fst snd].
  set (s1 := mk_State _ _).
  pose proof (range_Report_perm (group rs) (world s)) as Hperm.
  set (entries := (range_Report (group rs) (world s)).1) in *.
  assert (filter (fun l => is_header_text l = true)
            ((print_urls entries s1).1
               ++ (if negb (foundAny rs) then [not_found_text] else []))
          = header_text <$> entries.*1) as Hfilter.
  { rewrite filter_app, print_urls_headers.
    destruct (negb (foundAny rs)); [|by rewrite app_nil_r].
    rewrite filter_cons_False by done. by rewrite app_nil_r. }
  assert (entries.*1 ≡ₚ elements (dom (group rs))) as Hkeys.
  { rewrite Hperm. apply NoDup_Permutation.
    - apply NoDup_fst_map_to_list.
    - apply NoDup_elements.
    - intros u. rewrite elem_of_elements, elem_of_dom, list_elem_of_fmap.
      split.
      + intros ([u' m] & -> & Hm%elem_of_map_to_list). by exists m.
      + intros [m Hm]. exists (u, m). by rewrite elem_of_map_to_list. }
  split_and!.
  - by rewrite Hfilter, Hkeys.
  - intros u. 
    assert (header_text u ∈ header_text <$> entries.*1
            <-> exists r, r ∈ rs /\ URL r = u) as <-.
    { rewrite Hkeys, <-group_lookup_is_Some, <-elem_of_dom, <-elem_of_elements.
      split.
      - intros (u' & Heq%header_text_inj & Hu')%list_elem_of_fmap. by subst u'.
      - intros Hu. apply list_elem_of_fmap. by exists u. }
    rewrite <-Hfilter, list_elem_of_filter. 
    split; [intros Hin; by split|by intros [_ ?]].
  - destruct rs as [|r rs]; cbn [foundAny negb].
    + split; [done|intros _]. apply elem_of_app. right.
      by apply list_elem_of_singleton.
    + rewrite app_nil_r. split; [|done]. by intros ?%print_urls_not_found.
  - by rewrite print_urls_requests.
Qed.

Lemma print_urls_entry entries s u (m : Values) p cs :
  (u, m) ∈ entries -> m !! p = Some cs ->
  exists before mid after,
    (print_urls entries s).1
    = before ++ header_text u :: mid
        ++ param_text p :: unfiltered_text cs :: after
    /\ Forall (fun l => is_header_text l = false) mid.
Proof.
  intros Hin Hp. revert s.
  induction entries as [|[url params] entries IH]; intros s.
  { by apply elem_of_nil in Hin. }
  rewrite print_urls_cons.
  pose proof (range_Values_perm params (world s)) as Hperm.
  destruct (range_Values params (world s)) as [ps w]. cbn [fst] in *.
  apply elem_of_cons in Hin as [[= <- <-]|Hin].
  - assert ((p, cs) ∈ ps) as Hps by (by rewrite Hperm, elem_of_map_to_list).
    pose proof (print_params_no_header ps) as Hno.
    apply print_params_entry in Hps as (before & after & Heq).
    rewrite Heq in Hno |- *. apply Forall_app in Hno as [Hno _].
    exists [], before, (after ++ (print_urls entries (mk_State w (requests s))).1).
    split; [|done]. cbn [app]. f_equal. by rewrite <-app_assoc.
  - destruct (IH Hin (mk_State w (requests s)))
      as (before & mid & after & -> & Hmid).
    exists (header_text url :: print_params ps ++ before), mid, after.
    split; [|done]. cbn [app]. f_equal. by rewrite <-app_assoc.
Qed.

(** X20: every entry of the report is written behind the header text
    of its URL, with no other header text in between: the text of the
    parameter, and right behind it the text of its characters.  The
    texts are the calls of [fmt.Printf], not the lines of the output. *)
Theorem print_report_entries rs s u p cs :
  entry (group rs) u p = Some cs ->
  exists before mid after,
    (print_report (group rs) (foundAny rs) s).1
    = before ++ header_text u :: mid
        ++ param_text p :: unfiltered_text cs :: after
    /\ Forall (fun l => is_header_text l = false) mid.
Proof.
  unfold entry. destruct (group rs !! u) as [m|] eqn:Hm; [|done].
  cbn [mbind option_bind]. intros Hp.
  rewrite print_report_unfold. cbn zeta. cbn [fst].
  pose proof (range_Report_perm (group rs) (world s)) as Hperm.
  assert ((u, m) ∈ (range_Report (group rs) (world s)).1) as Hin
    by (by rewrite Hperm, elem_of_map_to_list).
  destruct (print_urls_entry _
              (mk_State (range_Report (group rs) (world s)).2 (requests s))
              u m p cs Hin Hp)
    as (before & mid & after & -> & Hmid).
  exists before, mid,
    (after ++ (if negb (foundAny rs) then [not_found_text] else [])).
  split; [|done]. rewrite <-!app_assoc. cbn [app]. do 2 f_equal.
  by rewrite <-app_assoc.
Qed.

End Output_facts.

Lemma print_report_entries_witness :
  let P := demo_platform unreachable in
  let R := demo_ReportRange unreachable in
  let rs := [ mk_Result "http://x/a?q=1" "q" ["<"; ">"];
              mk_Result "http://x/a?q=1" "r" ["'"];
              mk_Result "http://x/a?q=1" "q" ["<"] ] in
  exists before mid after,
    (@print_report P R (group rs) (foundAny rs) (demo_state _ false)).1
    = before ++ header_text "http://x/a?q=1" :: mid
        ++ param_text "q" :: unfiltered_text ["<"] :: after
    /\ Forall (fun l => is_header_text l = false) mid.
Proof.
  intros P R rs.
  apply (@print_report_entries P R rs (demo_state _ false)).
  vm_compute. reflexivity.
Defined.

Example print_report_example :
  let P := demo_platform unreachable in
  let R := demo_ReportRange unreachable in
  let rs := [ mk_Result "http://x/a?q=1" "q" ["<"; ">"];
              mk_Result "http://x/a?q=1" "q" ["<"] ] in
  (@print_report P R (group rs) (foundAny rs) (demo_state _ false)).1
  = [ header_text "http://x/a?q=1"; param_text "q"; unfiltered_text ["<"] ]
  /\ unfiltered_text ["<"; ">"]
     = "    Unfiltered: [< >]" +:+ newline +:+ newline
  /\ (@print_report P R (group []) (foundAny []) (demo_state _ false)).1
     = [ not_found_text ].
Proof. vm_compute. done. Qed.
